(** * cbconsul: the key-value operation layer, embedded and verified

    A shallow embedding of the parts of [cbconsul] that build requests for
    Consul's key-value HTTP API and decode its answers:

    - [_errors.py]   the exception classes,
    - [_utils.py]    [raise_for_status_error], [flatdict_to_dict],
                     [camel_to_snake],
    - [_adapter.py]  [path_join], [Request], [Response], [Adapter.request],
    - [kv.py]        [Operation] and its factories, [_get_method],
                     [_decode_content], [Record], [KV],
    - [consul.py]    [Config], [Consul.__init__].

    Conventions of the embedding.

    - A Python [str] is a [string], one character of the [string] for one of
      the [str]; the strings that matter here (paths, verbs, wire field
      names) are ASCII, and what is proved of [str.lower] is proved of ASCII
      strings.  [bytes] are a [string] too.
    - A value of type [Any] is a [pyval].
    - A function that may raise returns an [outcome]: [Ok v] or [Raise e].
      The message an exception carries is dropped, its class is kept.
    - A [dict] whose iteration order matters is an association list; a [dict]
      that is only looked up, and the nested mapping [flatdict_to_dict]
      builds, is a [gmap], whose equality is that of Python's [==].
    - [KV] objects are mutable (the [prefix] setter), so they live in a store
      indexed by object identity. *)

From stdpp Require Import gmap strings list fin_maps.
From Stdlib Require Import ZArith Ascii String.

#[local] Open Scope Z_scope.
#[local] Set Warnings "-register-all".

(* ===================================================================== *)
(** ** Exceptions and results                                             *)
(* ===================================================================== *)

(** [_errors.py]: the subclasses of [ConsulException]. *)
Inductive ConsulException : Type :=
| RequestError
| BadRequest
| Forbidden
| ServerError
| ConflictError
| NotFound
| LockFailure
| ACLDisabled.

(** What the embedded code can raise: the library's own exceptions, the
    built-in ones, [json.JSONDecodeError], and whatever the HTTP client
    raises ([HTTPError]). *)
Inductive exn : Type :=
| Consul (e : ConsulException)
| KeyError (arg : string)
| TypeError
| AttributeError
| IndexError
| JSONDecodeError
| HTTPError.

Inductive outcome (A : Type) : Type :=
| Ok (a : A)
| Raise (e : exn).
Arguments Ok {A} a.
Arguments Raise {A} e.

(** Sequencing: an exception ends the computation.  With these instances
    stdpp's [x ← r; k] is Python's [x = r; k]. *)
#[global] Instance outcome_ret : MRet outcome := fun A a => Ok a.
#[global] Instance outcome_bind : MBind outcome := fun A B k r =>
  match r with
  | Ok a => k a
  | Raise e => Raise e
  end.

Definition raises {A : Type} (r : outcome A) : Prop :=
  match r with
  | Ok _ => False
  | Raise _ => True
  end.

(** [mapM f l]: a list comprehension [[f(o) for o in l]] whose body may
    raise; the first exception ends it. *)
Fixpoint mapM {A B : Type} (f : A -> outcome B) (l : list A) : outcome (list B) :=
  match l with
  | [] => Ok []
  | a :: l' => b ← f a; bs ← mapM f l'; Ok (b :: bs)
  end.

(* ===================================================================== *)
(** ** Python values                                                      *)
(* ===================================================================== *)

(** The values that cross the transport (what [json.loads] or
    [http_response.read()] return) and the [Record] objects the decoder
    builds from them.  A [Record] is a dataclass whose field types are not
    enforced at run time, so each field holds a [pyval]. *)
Inductive pyval : Type :=
| PNone
| PBool (b : bool)
| PInt (n : Z)
| PStr (s : string)
| PBytes (b : string)
| PList (l : list pyval)
| PDict (items : list (string * pyval))
| PRecord (key create_index modify_index lock_index flags value session : pyval).

(** [v is None] *)
Definition is_None (v : pyval) : bool :=
  match v with
  | PNone => true
  | _ => false
  end.

(** [isinstance(v, str)] *)
Definition is_str (v : pyval) : bool :=
  match v with
  | PStr _ => true
  | _ => false
  end.

(** [isinstance(v, Mapping)] *)
Definition is_Mapping (v : pyval) : bool :=
  match v with
  | PDict _ => true
  | _ => false
  end.

(* ===================================================================== *)
(** ** Strings                                                            *)
(* ===================================================================== *)

Module Str.

Definition in_range (lo hi c : ascii) : bool :=
  (nat_of_ascii lo <=? nat_of_ascii c)%nat && (nat_of_ascii c <=? nat_of_ascii hi)%nat.

(** the character classes [[A-Z]], [[a-z]], [[0-9]] *)
Definition is_upper (c : ascii) : bool := in_range "A" "Z" c.
Definition is_lower (c : ascii) : bool := in_range "a" "z" c.
Definition is_digit (c : ascii) : bool := in_range "0" "9" c.

(** [.] without [re.DOTALL]: any character but a newline *)
Definition is_dot (c : ascii) : bool := negb (Ascii.eqb c "010").

Definition lower_char (c : ascii) : ascii :=
  if is_upper c then ascii_of_nat (nat_of_ascii c + 32)%nat else c.

(** [str.lower] of an ASCII string: the letters [A] to [Z] become [a] to
    [z], every other character stays.  (On other strings [str.lower]
    follows Unicode's case mapping, which this does not.) *)
Fixpoint lower (s : string) : string :=
  match s with
  | EmptyString => EmptyString
  | String c rest => String (lower_char c) (lower rest)
  end.

(** [s.startswith(pre)] *)
Fixpoint startswith (s pre : string) {struct pre} : bool :=
  match pre, s with
  | EmptyString, _ => true
  | String _ _, EmptyString => false
  | String a pre', String b s' => Ascii.eqb a b && startswith s' pre'
  end.

(** [s.replace(old, new)] for a non-empty [old]: the occurrences of [old]
    are found from left to right and do not overlap.  [skip] counts the
    characters of an occurrence that are still to be passed over. *)
Fixpoint replace_from (old new : string) (skip : nat) (s : string) : string :=
  match s with
  | EmptyString => EmptyString
  | String c rest =>
      match skip with
      | S n => replace_from old new n rest
      | O =>
          if startswith s old
          then new +:+ replace_from old new (String.length old - 1)%nat rest
          else String c (replace_from old new 0 rest)
      end
  end.

Definition replace (old new s : string) : string := replace_from old new 0 s.

(** ["".join(parts)] *)
Definition join (parts : list string) : string :=
  foldr String.append EmptyString parts.

(** [s.endswith(suffix)]: [suffix] is [s] or ends the rest of [s]. *)
Fixpoint endswith (s suffix : string) : bool :=
  String.eqb s suffix
  || match s with
     | EmptyString => false
     | String _ rest => endswith rest suffix
     end.

(** [s.count(sub)]: the occurrences of [sub] found from left to right
    that do not overlap; [len(s) + 1] for an empty [sub]. *)
Fixpoint count_from (sub : string) (skip : nat) (s : string) : nat :=
  match s with
  | EmptyString => O
  | String c rest =>
      match skip with
      | S n => count_from sub n rest
      | O =>
          if startswith s sub
          then S (count_from sub (String.length sub - 1)%nat rest)
          else count_from sub 0 rest
      end
  end.

Definition count (s sub : string) : nat :=
  match sub with
  | EmptyString => S (String.length s)
  | String _ _ => count_from sub 0 s
  end.

(** [s.split(sep)]: the pieces of [s] between the occurrences of [sep],
    found from left to right without overlap.  The head of the list is
    the piece that starts where [s] starts, after the [skip] characters
    of an occurrence still to be passed over. *)
Fixpoint split_from (sep : string) (skip : nat) (s : string) : list string :=
  match s with
  | EmptyString => [EmptyString]
  | String c rest =>
      match skip with
      | S n => split_from sep n rest
      | O =>
          if startswith s sep
          then EmptyString :: split_from sep (String.length sep - 1)%nat rest
          else
            match split_from sep 0 rest with
            | piece :: pieces => String c piece :: pieces
            | [] => [String c EmptyString]
            end
      end
  end.

(** [s.rstrip(chars)]: [s] without the characters of [chars] it ends
    with. *)
Fixpoint rstrip (s chars : string) : string :=
  match s with
  | EmptyString => EmptyString
  | String c rest =>
      match rstrip rest chars with
      | EmptyString =>
          if existsb (Ascii.eqb c) (list_ascii_of_string chars)
          then EmptyString
          else String c EmptyString
      | String _ _ as stripped => String c stripped
      end
  end.

(** [s.split(c, 1)] for a one-character separator: [s] cut at the first
    [c], or [s] alone when it has none. *)
Fixpoint split_once (s : string) (c : ascii) : string * option string :=
  match s with
  | EmptyString => (EmptyString, None)
  | String x rest =>
      if Ascii.eqb x c then (EmptyString, Some rest)
      else
        let (before, after) := split_once rest c in
        (String x before, after)
  end.

(** [None] stands for the [ValueError] an empty separator raises. *)
Definition split (s sep : string) : option (list string) :=
  match sep with
  | EmptyString => None
  | String _ _ => Some (split_from sep 0 s)
  end.

End Str.

(* ===================================================================== *)
(** ** The environment                                                    *)
(* ===================================================================== *)

(** [os.environ]: the variables that are set, with their values. *)
Definition environ : Type := string -> option string.

(** [os.getenv(key, default)] *)
Definition getenv (env : environ) (key default : string) : string :=
  match env key with
  | Some value => value
  | None => default
  end.

(** The truth value of an [Optional[str]]: [None] and [""] are false. *)
Definition truthy (o : option string) : bool :=
  match o with
  | Some s => negb (String.eqb s "")
  | None => false
  end.

(** [a or b] for two [Optional[str]]. *)
Definition or_else (a b : option string) : option string :=
  if truthy a then a else b.

(* ===================================================================== *)
(** ** [_utils.py]                                                        *)
(* ===================================================================== *)

Module Utils.

(** *** [get_consul_address] *)

(** The default of [CONSUL_PORT] is the number [8500], which the f-string
    writes as ["8500"]. *)
Definition get_consul_address (env : environ) : string :=
  let addr := or_else (env "CONSUL_ADDR"%string) (env "CONSUL_HTTP_ADDR"%string) in
  match addr with
  | Some addr =>
      if negb (String.eqb addr "") then addr
      else
        let host := getenv env "CONSUL_HOST" "localhost" in
        let port := getenv env "CONSUL_PORT" "8500" in
        let scheme := getenv env "CONSUL_SCHEME" "http" in
        scheme +:+ "://" +:+ host +:+ ":" +:+ port
  | None =>
      let host := getenv env "CONSUL_HOST" "localhost" in
      let port := getenv env "CONSUL_PORT" "8500" in
      let scheme := getenv env "CONSUL_SCHEME" "http" in
      scheme +:+ "://" +:+ host +:+ ":" +:+ port
  end.

(** *** [raise_for_status_error] *)

(** [httpx.Response.is_client_error], [is_server_error]: the status code
    is in 400..499, in 500..599. *)
Definition is_client_error (status_code : Z) : bool :=
  (400 <=? status_code) && (status_code <=? 499).
Definition is_server_error (status_code : Z) : bool :=
  (500 <=? status_code) && (status_code <=? 599).

(** The function reads the response's status code only (the headers go
    into the message, which is dropped). *)
Definition raise_for_status_error (status_code : Z) (allow_404 : bool) : outcome unit :=
  if is_client_error status_code then
    if status_code =? 400 then Raise (Consul BadRequest)
    else if status_code =? 401 then Raise (Consul ACLDisabled)
    else if status_code =? 403 then Raise (Consul Forbidden)
    else if status_code =? 404 then
      if negb allow_404 then Raise (Consul NotFound) else Ok tt
    else if status_code =? 409 then Raise (Consul ConflictError)
    else Raise (Consul RequestError)
  else if is_server_error status_code then Raise (Consul ServerError)
  else Ok tt.

(** *** [camel_to_snake] *)

(** [re.sub(_CTS_1, r"\1_\2", name)] with [_CTS_1 = (.)([A-Z][a-z]+)].
    The matches are found from left to right and do not overlap.
    [in_word] says that the characters just emitted end a match, whose
    greedy [[a-z]+] goes on as long as lower-case letters follow. *)
Fixpoint sub_CTS_1 (in_word : bool) (name : string) : string :=
  match name with
  | EmptyString => EmptyString
  | String c rest =>
      if in_word && Str.is_lower c then String c (sub_CTS_1 true rest)
      else
        match rest with
        | String u (String l rest') =>
            if Str.is_dot c && Str.is_upper u && Str.is_lower l
            then String c (String "_" (String u (String l (sub_CTS_1 true rest'))))
            else String c (sub_CTS_1 false rest)
        | _ => String c (sub_CTS_1 false rest)
        end
  end.

(** [re.sub(_CTS_2, r"\1_\2", name)] with [_CTS_2 = ([a-z0-9])([A-Z])]. *)
Fixpoint sub_CTS_2 (name : string) : string :=
  match name with
  | EmptyString => EmptyString
  | String c rest =>
      match rest with
      | String u rest' =>
          if (Str.is_lower c || Str.is_digit c) && Str.is_upper u
          then String c (String "_" (String u (sub_CTS_2 rest')))
          else String c (sub_CTS_2 rest)
      | EmptyString => String c EmptyString
      end
  end.

Definition camel_to_snake (name : string) : string :=
  let name := sub_CTS_1 false name in
  Str.lower (sub_CTS_2 name).

(** *** [flatdict_to_dict] *)

(** The nested mapping: a value stored under a key is a leaf (a [_VT]) or
    another mapping.  Leaves are not mappings: in [KV.get_tree], the one
    caller, they are [str] or [None], that is an [option string]. *)
Inductive tree (K : Type) `{Countable K} (V : Type) : Type :=
| Leaf (v : V)
| Node (children : gmap K (tree K V)).
Arguments Leaf {K _ _ V} v.
Arguments Node {K _ _ V} children.

Section flatdict.
Context {K : Type} `{Countable K} {V : Type}.

(** [current_dict.setdefault(prefix_key, typ())]: the value stored under
    [prefix_key], a new empty mapping when there is none.  (That the new
    mapping is also stored under [prefix_key] is part of [assign].) *)
Definition setdefault (current_dict : gmap K (tree K V)) (prefix_key : K) : tree K V :=
  default (Node ∅) (current_dict !! prefix_key).

(** The body of the outer loop, for one [key_tuple, value]:
<<
    current_dict = result
    for prefix_key in key_tuple[:-1]:
        current_dict = current_dict.setdefault(prefix_key, typ())
    current_dict[key_tuple[-1]] = value
>>
    [current_dict] is a reference into [result] and the last line
    mutates the mapping it points to; here the mappings on the way down
    are rebuilt around the changed one.  [prefix_keys] is what is left
    of [key_tuple[:-1]], [last_key] is [key_tuple[-1]].

    When [setdefault] finds a leaf, [current_dict] becomes that leaf.
    The code has no test for this.  A [str] or [None] has no [setdefault]
    (the next round of the loop raises [AttributeError]) and no item
    assignment (the last line raises [TypeError]): the [Leaf] branch below
    is that of such leaves.  What is stated of this branch is stated for
    [option string] leaves; input whose key tuples are prefix-free never
    reaches it. *)
Fixpoint assign (current_dict : gmap K (tree K V)) (prefix_keys : list K)
    (last_key : K) (value : V) : outcome (gmap K (tree K V)) :=
  match prefix_keys with
  | [] => Ok (<[last_key := Leaf value]> current_dict)
  | prefix_key :: prefix_keys' =>
      match setdefault current_dict prefix_key with
      | Node sub =>
          sub ← assign sub prefix_keys' last_key value;
          Ok (<[prefix_key := Node sub]> current_dict)
      | Leaf _ =>
          match prefix_keys' with
          | [] => Raise TypeError
          | _ :: _ => Raise AttributeError
          end
      end
  end.

(** [key_tuple[-1]] of an empty tuple raises [IndexError] (the loop over
    [key_tuple[:-1]], empty too, has done nothing by then). *)
Definition store_entry (result : gmap K (tree K V)) (key_tuple : list K) (value : V)
    : outcome (gmap K (tree K V)) :=
  match last key_tuple with
  | None => Raise IndexError
  | Some last_key => assign result (removelast key_tuple) last_key value
  end.

(** [dct.items()] in iteration order. *)
Fixpoint fold_entries (result : gmap K (tree K V)) (items : list (list K * V))
    : outcome (gmap K (tree K V)) :=
  match items with
  | [] => Ok result
  | (key_tuple, value) :: items' =>
      result ← store_entry result key_tuple value;
      fold_entries result items'
  end.

Definition flatdict_to_dict (dct : list (list K * V)) : outcome (gmap K (tree K V)) :=
  fold_entries ∅ dct.

End flatdict.

End Utils.

(* ===================================================================== *)
(** ** [_adapter.py]                                                      *)
(* ===================================================================== *)

(** [path_join(path)] for a [str]. *)
Definition path_join_str (path : string) : string :=
  let path := "/" +:+ path in
  Str.replace "//" "/" path.

(** [path_join(path)] for a tuple of [str]: each part goes through
    [path_join] itself before the parts are joined. *)
Definition path_join (path : list string) : string :=
  let path := Str.join (map path_join_str path) in
  let path := "/" +:+ path in
  Str.replace "//" "/" path.

Module Request.

Record t : Type := mk {
  method : string;
  path : string;
  content : pyval;
  params : list (string * pyval);
  headers : list (string * string);
  json : pyval
}.

(** [Request(method, *paths, params=..., content=...)]; [headers] and
    [json] keep their defaults. *)
Definition __init__ (method : string) (paths : list string)
    (params : list (string * pyval)) (content : pyval) : t :=
  let cleaned_params := List.filter (fun kv => negb (is_None kv.2)) params in
  {| method := method;
     path := path_join paths;
     content := content;
     params := cleaned_params;
     headers := [];
     json := PNone |}.

End Request.

Module Response.

Record t : Type := mk {
  method : string;
  path : string;
  status : Z;
  content : pyval;
  headers : list (string * string)
}.

End Response.

(** What the HTTP client hands back.  [body] stands for what the adapter
    makes of its payload:
<<
    body = http_response.read()
    if http_response.headers.get("Content-Type") == "application/json":
        body = json.loads(http_response.text)
>>
    that is, the bytes read, or, for a JSON content type, the value
    [json.loads] returns; [json.loads] raises [JSONDecodeError] on a text
    that is not JSON. *)
Record HttpResponse : Type := {
  status_code : Z;
  url_path : string;
  body : outcome pyval;
  http_headers : list (string * string)
}.

Module Adapter.

(** The adapter owns the HTTP session; [session] is the round trip
    [build_request] + [send], which may raise. *)
Record t : Type := mk {
  _base_url : string;
  session : Request.t -> outcome HttpResponse
}.

(** On a 404 the response is closed and its payload not looked at; on
    every other status the payload is read and decoded before the status
    is checked. *)
Definition request (self : t) (req : Request.t) : outcome Response.t :=
  http_response ← session self req;
  body ←
    (if status_code http_response =? 404 then Ok PNone else body http_response);
  _ ← Utils.raise_for_status_error (status_code http_response) true;
  Ok {| Response.method := Request.method req;
        Response.path := url_path http_response;
        Response.status := status_code http_response;
        Response.content := body;
        Response.headers := http_headers http_response |}.

(** [httpx.Auth]: the two kinds the library makes. *)
Inductive Auth : Type :=
| TokenAuth (token : string)
| BasicAuth (username password : string).

(** What [Adapter.__init__] sets, from which the session is made on first
    use.  The field [base_url] is the attribute [_base_url], a name the
    record above has taken. *)
Record fields : Type := mk_fields {
  base_url : string;
  _auth : option Auth;
  _timeout : option Z;
  _headers : list (string * string)
}.

Definition __init__ (base_url : string) (auth : option Auth) (namespace : option string)
    (timeout : option Z) : fields :=
  {| base_url := base_url;
     _auth := auth;
     _timeout := timeout;
     _headers :=
       match namespace with
       | Some ns => if negb (String.eqb ns "") then [("X-Consul-Namespace"%string, ns)] else []
       | None => []
       end |}.

End Adapter.

(* ===================================================================== *)
(** ** [kv.py]                                                            *)
(* ===================================================================== *)

Module Operation.

(** The frozen dataclass.  [value] is [None] ([PNone]) by default. *)
Record t : Type := mk {
  verb : string;
  key : string;
  value : pyval;
  raw : option bool;
  separator : option string;
  keys : option bool;
  recurse : option bool;
  index : option Z;
  wait : option string;
  flags : option Z;
  cas : option Z;
  acquire : option string;
  release : option string
}.

Definition opt {A : Type} (inj : A -> pyval) (o : option A) : pyval :=
  match o with
  | Some a => inj a
  | None => PNone
  end.

(** What [asdict] hands to its [dict_factory]: every field with its
    value, in declaration order. *)
Definition items (self : t) : list (string * pyval) :=
  [ ("verb", PStr (verb self));
    ("key", PStr (key self));
    ("value", value self);
    ("raw", opt PBool (raw self));
    ("separator", opt PStr (separator self));
    ("keys", opt PBool (keys self));
    ("recurse", opt PBool (recurse self));
    ("index", opt PInt (index self));
    ("wait", opt PStr (wait self));
    ("flags", opt PInt (flags self));
    ("cas", opt PInt (cas self));
    ("acquire", opt PStr (acquire self));
    ("release", opt PStr (release self)) ]%string.

Definition params_dict (self : t) : list (string * pyval) :=
  let exportable := list_difference (items self).*1 ["verb"; "key"; "value"]%string in
  let export (items : list (string * pyval)) :=
    List.filter (fun kv => bool_decide (kv.1 ∈ exportable) && negb (is_None kv.2)) items in
  export (items self).

(** The factories.  A field that is not named keeps its default [None]. *)

Definition get (key : string) (raw : option bool) : t :=
  {| verb := "get"; key := key; value := PNone;
     raw := raw; separator := None; keys := None; recurse := None;
     index := None; wait := None; flags := None; cas := None;
     acquire := None; release := None |}.

Definition get_tree (prefix : string) (recurse : bool) (separator : string) : t :=
  {| verb := "get-tree"; key := prefix; value := PNone;
     raw := None;
     separator := Some (if recurse then "" else separator);
     keys := None; recurse := Some true;
     index := None; wait := None; flags := None; cas := None;
     acquire := None; release := None |}.

Definition list_tree (prefix : string) (recurse : bool) (separator : string) : t :=
  {| verb := "get-tree"; key := prefix; value := PNone;
     raw := None;
     separator := Some (if recurse then "" else separator);
     keys := Some true; recurse := None;
     index := None; wait := None; flags := None; cas := None;
     acquire := None; release := None |}.

Definition set (key : string) (value : pyval) (flags : option Z) : t :=
  {| verb := "set"; key := key; value := value;
     raw := None; separator := None; keys := None; recurse := None;
     index := None; wait := None; flags := flags; cas := None;
     acquire := None; release := None |}.

Definition set_cas (key : string) (value : pyval) (index : Z) (flags : option Z) : t :=
  {| verb := "cas"; key := key; value := value;
     raw := None; separator := None; keys := None; recurse := None;
     index := None; wait := None; flags := flags; cas := Some index;
     acquire := None; release := None |}.

(** [value.encode("utf-8")]: the bytes of the text. *)
Definition lock (key : string) (value : string) (flags : option Z) : t :=
  {| verb := "acquire"; key := key; value := PBytes value;
     raw := None; separator := None; keys := None; recurse := None;
     index := None; wait := None; flags := flags; cas := None;
     acquire := Some value; release := None |}.

Definition unlock (key : string) (value : string) (flags : option Z) : t :=
  {| verb := "release"; key := key; value := PBytes value;
     raw := None; separator := None; keys := None; recurse := None;
     index := None; wait := None; flags := flags; cas := None;
     acquire := None; release := Some value |}.

Definition delete (key : string) : t :=
  {| verb := "delete"; key := key; value := PNone;
     raw := None; separator := None; keys := None; recurse := None;
     index := None; wait := None; flags := None; cas := None;
     acquire := None; release := None |}.

Definition delete_cas (key : string) (index : Z) : t :=
  {| verb := "delete-cas"; key := key; value := PNone;
     raw := None; separator := None; keys := None; recurse := None;
     index := None; wait := None; flags := None; cas := Some index;
     acquire := None; release := None |}.

Definition delete_tree (prefix : string) : t :=
  {| verb := "delete-tree"; key := prefix; value := PNone;
     raw := None; separator := None; keys := None; recurse := Some true;
     index := None; wait := None; flags := None; cas := None;
     acquire := None; release := None |}.

End Operation.

Definition _get_method (op : Operation.t) : string :=
  if bool_decide (Operation.verb op ∈ ["delete-cas"; "delete-tree"; "delete"]%string)
  then "DELETE"
  else if bool_decide (Operation.verb op ∈ ["set"; "cas"; "lock"; "unlock"]%string)
  then "PUT"
  else "GET".

(** *** [Record] *)

Module Record_.

(** The dataclass's fields, in declaration order. *)
Definition fields : list string :=
  ["key"; "create_index"; "modify_index"; "lock_index"; "flags"; "value"; "session"]%string.

(** [Record] called with the keyword arguments [kwargs], through the
    [__init__] the dataclass generates:
    [key] is required, the other fields have defaults, and a keyword
    that names no field is a [TypeError], as is a missing [key]. *)
Definition __init__ (kwargs : gmap string pyval) : outcome pyval :=
  if bool_decide (dom kwargs ⊆ list_to_set fields) then
    match kwargs !! "key"%string with
    | None => Raise TypeError
    | Some key =>
        Ok (PRecord key
              (default (PInt 0) (kwargs !! "create_index"%string))
              (default (PInt 0) (kwargs !! "modify_index"%string))
              (default (PInt 0) (kwargs !! "lock_index"%string))
              (default (PInt 0) (kwargs !! "flags"%string))
              (default (PStr "") (kwargs !! "value"%string))
              (default (PStr "") (kwargs !! "session"%string)))
    end
  else Raise TypeError.

End Record_.

(** [{camel_to_snake(k): v for k, v in o.items()}]: a later item replaces
    an earlier one whose key translates to the same name. *)
Definition snake_kwargs (items : list (string * pyval)) : gmap string pyval :=
  foldl (fun kwargs kv => <[Utils.camel_to_snake kv.1 := kv.2]> kwargs) ∅ items.

(** The body of the comprehension in [_decode_content],
    [Record] called with these keyword arguments; it is only reached with
    [o] a mapping. *)
Definition record_of (o : pyval) : outcome pyval :=
  match o with
  | PDict items => Record_.__init__ (snake_kwargs items)
  | _ => Raise AttributeError
  end.

(** [next(iter(content_list), content_list)] *)
Definition next_or_self (content_list : list pyval) : pyval :=
  match content_list with
  | first :: _ => first
  | [] => PList content_list
  end.

(** [content] is decoded JSON or raw bytes: a JSON array is a [list], so
    the [set] and [tuple] of the [isinstance] test do not occur. *)
Definition _decode_content (op : Operation.t) (content : pyval) : outcome pyval :=
  match content with
  | PBool _ | PStr _ | PBytes _ => Ok content
  | PList l =>
      if forallb is_str l then Ok (PList l)
      else if forallb is_Mapping l then
        content_list ← mapM record_of l;
        if bool_decide (Operation.verb op ∈ ["get"; "watch"]%string)
        then Ok (next_or_self content_list)
        else Ok (PList content_list)
      else Ok PNone
  | _ => Ok PNone
  end.

(** *** [KV] *)

Module KV.

Record t : Type := mk {
  _adapter : Adapter.t;
  _prefix : option string
}.

(** The [prefix] property. *)
Definition prefix (self : t) : option string := _prefix self.

(** [a or b] for [a : Optional[str]]: [a] when it is truthy, that is
    neither [None] nor empty, and [b] otherwise. *)
Definition or_ (a : option string) (b : string) : string :=
  match a with
  | Some s => if bool_decide (s = ""%string) then b else s
  | None => b
  end.

(** [key = self.prefix or "" + op.key]: [+] binds tighter than [or]. *)
Definition apply_key (self : t) (op : Operation.t) : string :=
  or_ (prefix self) ("" +:+ Operation.key op).

(** [Request(_get_method(op), "kv", key, params=op.params_dict(), content=op.value)] *)
Definition apply_request (self : t) (op : Operation.t) : Request.t :=
  let key := apply_key self op in
  Request.__init__ (_get_method op) ["kv"%string; key]
    (Operation.params_dict op) (Operation.value op).

(** [default] is [None] ([PNone]) when the caller gives none. *)
Definition apply (self : t) (op : Operation.t) (default : pyval) : outcome pyval :=
  let request := apply_request self op in
  response ← Adapter.request (_adapter self) request;
  if is_None (Response.content response) then
    if is_None default then Raise (KeyError (Operation.key op))
    else Ok default
  else _decode_content op (Response.content response).

Definition get (self : t) (key : string) (raw : option bool) : outcome pyval :=
  apply self (Operation.get key raw) PNone.

Definition get_records (self : t) (prefix : string) (recurse : bool) (separator : string)
    : outcome pyval :=
  apply self (Operation.get_tree prefix recurse separator) PNone.

Definition set (self : t) (key : string) (value : pyval) (flags : option Z) : outcome pyval :=
  apply self (Operation.set key value flags) PNone.

Definition set_cas (self : t) (key : string) (value : pyval) (index : Z) (flags : option Z)
    : outcome pyval :=
  apply self (Operation.set_cas key value index flags) PNone.

Definition lock (self : t) (key : string) (value : string) (flags : option Z) : outcome pyval :=
  apply self (Operation.lock key value flags) PNone.

Definition unlock (self : t) (key : string) (value : string) (flags : option Z) : outcome pyval :=
  apply self (Operation.unlock key value flags) PNone.

Definition delete (self : t) (key : string) : outcome pyval :=
  apply self (Operation.delete key) PNone.

Definition delete_cas (self : t) (key : string) (index : Z) : outcome pyval :=
  apply self (Operation.delete_cas key index) PNone.

Definition delete_tree (self : t) (prefix : string) : outcome pyval :=
  apply self (Operation.delete_tree prefix) PNone.

(** The first line of [get_tree] and of [list_tree],
    [prefix = prefix + separator if not prefix.endswith(separator) else prefix]. *)
Definition tree_prefix (prefix separator : string) : string :=
  if negb (Str.endswith prefix separator) then prefix +:+ separator else prefix.

Definition list_tree (self : t) (prefix : string) (recurse : bool) (separator : string)
    : outcome pyval :=
  let prefix := tree_prefix prefix separator in
  apply self (Operation.list_tree prefix recurse separator) PNone.

(** In [get_tree], [index = prefix.count(separator)], for the [prefix]
    the first line has made. *)
Definition tree_index (prefix separator : string) : nat :=
  Str.count prefix separator.

(** In [get_tree], the key a record gets in the flat mapping,
    [tuple(record.key.split(separator)[index:])], for a record whose [key]
    is the string [key].  [None] stands for the [ValueError] of [split]. *)
Definition key_tuple (key separator : string) (index : nat) : option (list string) :=
  parts ← Str.split key separator;
  Some (drop index parts).

(** **** Object identity

    A [KV] is a mutable object: the store maps the identity of each live
    façade to its state. *)

(** [KV(adapter, prefix=prefix)]: a new object. *)
Definition __init__ (σ : gmap nat t) (adapter : Adapter.t) (prefix : option string)
    : nat * gmap nat t :=
  let self := fresh (dom σ) in
  (self, <[self := mk adapter prefix]> σ).

(** The [prefix] setter. *)
Definition set_prefix (σ : gmap nat t) (self : nat) (prefix : option string) : gmap nat t :=
  alter (fun o => mk (_adapter o) prefix) self σ.

(** [prefixed]: what the context manager yields, and the store after it.
    [None] stands for a [self] that is not a live object. *)
Definition prefixed (σ : gmap nat t) (self : nat) (prefix : string)
    : option (nat * gmap nat t) :=
  o ← σ !! self;
  Some (__init__ σ (_adapter o) (Some prefix)).

End KV.

(* ===================================================================== *)
(** ** [consul.py]                                                        *)
(* ===================================================================== *)

Module Config.

Record t : Type := mk {
  address : string;
  token : option string;
  timeout : option Z;
  namespace : option string;
  basic_auth : option string;
  prefix : option string
}.

End Config.

(** What the construction of a client can raise: [ValueError], beside the
    exceptions above. *)
Inductive raised : Type :=
| Exn (e : exn)
| ValueError.

Module Consul.

(** The first argument of [Consul]: nothing, an address, or a [Config]. *)
Inductive config_arg : Type :=
| NoConfig
| Address (address : string)
| OfConfig (config : Config.t).

(** A client is its adapter and its [KV]; the [KV] is built on that same
    adapter, so that its prefix is all there is to record.  In [__init__],
    [if config.token:] is a match on [config.token or None], and the same
    for [config.basic_auth]. *)
Record t : Type := mk {
  _adapter : Adapter.fields;
  _kv_prefix : option string
}.

Section init.

(** [os.environ], and [int] on a string: [None] stands for the
    [ValueError] of a string that is no number. *)
Variable env : environ.
Variable int_ : string -> option Z.

(** The [else] branch of [__init__]: the [Config] made from the address
    and the keywords.  The keywords [timeout] and [namespace] are
    resolved too, and [int] may raise there, but the [Config] is built
    from the address, the token and the basic-auth string only. *)
Definition resolve (config : option string) (token : option string) (timeout : option Z)
    (basic_auth namespace : option string) : raised + (Config.t * option string) :=
  let address :=
    match or_else config (Some (getenv env "CONSUL_HTTP_ADDR" "http://localhost:8500")) with
    | Some address => address
    | None => EmptyString
    end in
  let token := or_else token (env "CONSUL_HTTP_TOKEN"%string) in
  let from_env : raised + Z :=
    match env "CONSUL_HTTP_TIMEOUT"%string with
    | Some text =>
        match int_ text with
        | Some n => inr n
        | None => inl ValueError
        end
    | None => inr 5
    end in
  let timeout : raised + Z :=
    match timeout with
    | Some n => if negb (n =? 0) then inr n else from_env
    | None => from_env
    end in
  match timeout with
  | inl e => inl e
  | inr _ =>
      let basic_auth := or_else basic_auth (env "CONSUL_HTTP_AUTH"%string) in
      let namespace := or_else namespace (env "CONSUL_NAMESPACE"%string) in
      inr ({| Config.address := address;
              Config.token := token;
              Config.timeout := None;
              Config.namespace := None;
              Config.basic_auth := basic_auth;
              Config.prefix := None |},
           namespace)
  end.

(** [httpx.BasicAuth] called with the parts of
    [config.basic_auth.split(":", 1)] as its arguments: without a colon
    there is one argument only, and the password is missing. *)
Definition basic (basic_auth : string) : raised + Adapter.Auth :=
  match Str.split_once basic_auth ":" with
  | (username, Some password) => inr (Adapter.BasicAuth username password)
  | (_, None) => inl (Exn TypeError)
  end.

Definition __init__ (config : config_arg) (token : option string) (timeout : option Z)
    (basic_auth namespace prefix : option string) : raised + t :=
  let resolved :=
    match config with
    | OfConfig config => inr (config, namespace)
    | Address address => resolve (Some address) token timeout basic_auth namespace
    | NoConfig => resolve None token timeout basic_auth namespace
    end in
  match resolved with
  | inl e => inl e
  | inr (config, namespace) =>
      let auth : raised + option Adapter.Auth :=
        match or_else (Config.token config) None with
        | Some token => inr (Some (Adapter.TokenAuth token))
        | None =>
            match or_else (Config.basic_auth config) None with
            | Some basic_auth =>
                match basic basic_auth with
                | inr auth => inr (Some auth)
                | inl e => inl e
                end
            | None => inr None
            end
        end in
      match auth with
      | inl e => inl e
      | inr auth =>
          let address := Str.rstrip (Config.address config) "/" +:+ "/v1" in
          let adapter := Adapter.__init__ address auth namespace (Config.timeout config) in
          inr {| _adapter := adapter; _kv_prefix := Config.prefix config |}
      end
  end.

End init.

End Consul.

(* ===================================================================== *)
(** ** Vocabulary of the statements                                       *)
(* ===================================================================== *)

(** The field names of a key-value entry on the wire, as the Consul API
    documents them, in the order of the fields of [Record]. *)
Definition wire_fields : list string :=
  ["Key"; "CreateIndex"; "ModifyIndex"; "LockIndex"; "Flags"; "Value"; "Session"]%string.

(** [o.get(k)] on the items of a mapping. *)
Fixpoint dict_get (items : list (string * pyval)) (k : string) : option pyval :=
  match items with
  | [] => None
  | (k', v) :: items' => if String.eqb k' k then Some v else dict_get items' k
  end.

(** A key-record mapping: a mapping (its keys are distinct) whose keys
    are wire field names, ["Key"] among them. *)
Definition key_record (items : list (string * pyval)) : Prop :=
  NoDup items.*1
  ∧ (∀ k, k ∈ items.*1 → k ∈ wire_fields)
  ∧ "Key"%string ∈ items.*1.

(** The [Record] a key-record mapping stands for: each field holds what
    the mapping has under the wire name, or the field's default. *)
Definition Record_of_wire (items : list (string * pyval)) : pyval :=
  PRecord
    (default PNone (dict_get items "Key"))
    (default (PInt 0) (dict_get items "CreateIndex"))
    (default (PInt 0) (dict_get items "ModifyIndex"))
    (default (PInt 0) (dict_get items "LockIndex"))
    (default (PInt 0) (dict_get items "Flags"))
    (default (PStr "") (dict_get items "Value"))
    (default (PStr "") (dict_get items "Session")).

Section nesting.
Context {K : Type} `{Countable K} {V : Type}.

(** The leaf stored in [d] at the nested position [path], if there is
    one: [d[path[0]][path[1]]...] is a leaf. *)
Fixpoint leaf_at (d : gmap K (Utils.tree K V)) (path : list K) : option V :=
  match path with
  | [] => None
  | k :: path' =>
      match d !! k with
      | None => None
      | Some (Utils.Node sub) => leaf_at sub path'
      | Some (Utils.Leaf v) =>
          match path' with
          | [] => Some v
          | _ :: _ => None
          end
      end
  end.

(** Whether a mapping is stored in [d] at the nested position [path];
    the empty path is the position of [d] itself. *)
Fixpoint node_at (d : gmap K (Utils.tree K V)) (path : list K) : bool :=
  match path with
  | [] => true
  | k :: path' =>
      match d !! k with
      | Some (Utils.Node sub) => node_at sub path'
      | _ => false
      end
  end.

(** [p] is a proper prefix of [q]. *)
Definition proper_prefix (p q : list K) : Prop := p `prefix_of` q ∧ p ≠ q.

(** No key tuple of [dct] is a proper prefix of another one. *)
Definition prefix_free (dct : list (list K * V)) : Prop :=
  ∀ p q, p ∈ dct.*1 → q ∈ dct.*1 → ¬ proper_prefix p q.

(** Neither tuple is a prefix of the other (so they differ). *)
Definition incomparable (p q : list K) : Prop :=
  ¬ p `prefix_of` q ∧ ¬ q `prefix_of` p.

End nesting.

(** [s] with every run of consecutive slashes reduced to one slash. *)
Fixpoint collapse_slashes (s : string) : string :=
  match s with
  | EmptyString => EmptyString
  | String c rest =>
      match rest with
      | String c' _ =>
          if Ascii.eqb c "/" && Ascii.eqb c' "/"
          then collapse_slashes rest
          else String c (collapse_slashes rest)
      | EmptyString => String c EmptyString
      end
  end.

(** The length of the longest run of consecutive slashes in [s], where
    [cur] slashes stand right before [s]. *)
Fixpoint longest_slash_run (cur : nat) (s : string) : nat :=
  match s with
  | EmptyString => cur
  | String c rest =>
      if Ascii.eqb c "/"
      then longest_slash_run (S cur) rest
      else Nat.max cur (longest_slash_run 0 rest)
  end.

(** *** Test doubles *)

(** A transport that answers every request with the given status code and
    body. *)
Definition answering (status : Z) (content : pyval) : Adapter.t :=
  Adapter.mk "http://localhost:8500/v1"
    (fun req => Ok {| status_code := status;
                      url_path := Request.path req;
                      body := Ok content;
                      http_headers := [] |}).

(** A façade scoped to ["svc/"], alone in its store. *)
Definition example_facade : KV.t :=
  KV.mk (answering 200 (PBool true)) (Some "svc/"%string).

Definition example_store : gmap nat KV.t := {[ 0%nat := example_facade ]}.

(** A key-value entry as Consul sends it, and the [Record] it stands
    for. *)
Definition example_entry : list (string * pyval) :=
  [("LockIndex", PInt 0); ("Key", PStr "svc/config"); ("Flags", PInt 0);
   ("Value", PStr "dGVzdA=="); ("CreateIndex", PInt 100);
   ("ModifyIndex", PInt 200)]%string.

Definition example_record : pyval :=
  PRecord (PStr "svc/config") (PInt 100) (PInt 200) (PInt 0) (PInt 0)
    (PStr "dGVzdA==") (PStr "").

(** The modifiers of an [Operation]: its fields other than [verb], [key]
    and [value], in declaration order. *)
Definition modifiers : list string :=
  ["raw"; "separator"; "keys"; "recurse"; "index"; "wait"; "flags"; "cas";
   "acquire"; "release"]%string.

(** A transport that answers every request with the given status code and
    a JSON payload that does not parse. *)
Definition garbled (status : Z) : Adapter.t :=
  Adapter.mk "http://localhost:8500/v1"
    (fun req => Ok {| status_code := status;
                      url_path := Request.path req;
                      body := Raise JSONDecodeError;
                      http_headers := [("Content-Type", "application/json")]%string |}).

(** A transport that answers every request with a 404. *)
Definition always_404 (adapter : Adapter.t) : Prop :=
  ∀ req, ∃ http, Adapter.session adapter req = Ok http ∧ status_code http = 404.

(** A body the service sends as it is: a boolean, a string or bytes. *)
Definition is_scalar (content : pyval) : bool :=
  match content with
  | PBool _ | PStr _ | PBytes _ => true
  | _ => false
  end.

(** A body of a shape the decoder does not know: a number, an object, or
    a list that is neither all strings nor all objects. *)
Definition unknown_shape (content : pyval) : Prop :=
  match content with
  | PInt _ | PDict _ => True
  | PList l => forallb is_str l = false ∧ forallb is_Mapping l = false
  | _ => False
  end.

(** [s.isascii()] *)
Fixpoint isascii (s : string) : bool :=
  match s with
  | EmptyString => true
  | String c rest => (nat_of_ascii c <? 128)%nat && isascii rest
  end.

(** [s] has no upper-case ASCII letter. *)
Fixpoint no_upper (s : string) : bool :=
  match s with
  | EmptyString => true
  | String c rest => negb (Str.is_upper c) && no_upper rest
  end.

(** [s] without its underscores. *)
Fixpoint strip_underscores (s : string) : string :=
  match s with
  | EmptyString => EmptyString
  | String c rest =>
      if Ascii.eqb c "_" then strip_underscores rest
      else String c (strip_underscores rest)
  end.

(** [s] has no slash. *)
Fixpoint slash_free (s : string) : bool :=
  match s with
  | EmptyString => true
  | String c rest => negb (Ascii.eqb c "/") && slash_free rest
  end.

(** A path segment: not empty and without a slash. *)
Definition segment (s : string) : Prop := s ≠ ""%string ∧ slash_free s = true.

(** [s] does not contain the character [c]. *)
Fixpoint char_free (c : ascii) (s : string) : bool :=
  match s with
  | EmptyString => true
  | String x rest => negb (Ascii.eqb x c) && char_free c rest
  end.

(** [sep.join(segments)] *)
Fixpoint join_with (sep : string) (segments : list string) : string :=
  match segments with
  | [] => EmptyString
  | [segment] => segment
  | segment :: rest => segment +:+ sep +:+ join_with sep rest
  end.

(** [n] slashes. *)
Fixpoint slashes (n : nat) : string :=
  match n with
  | O => EmptyString
  | S n => String "/" (slashes n)
  end.

(** An environment in which no variable is set. *)
Definition no_environ : environ := fun _ => None.

(* ===================================================================== *)
(** * Properties                                                          *)
(* ===================================================================== *)

#[local] Open Scope string_scope.
#[local] Open Scope Z_scope.

(** ** The key sent by [KV.apply] *)

Lemma or_truthy (p b : string) : p ≠ "" → KV.or_ (Some p) b = p.
Proof.
  intros Hp. unfold KV.or_. rewrite bool_decide_eq_false_2; done.
Qed.

Lemma or_falsy (b : string) : KV.or_ None b = b ∧ KV.or_ (Some "") b = b.
Proof. split; reflexivity. Qed.

(** With a non-empty prefix the key is the prefix alone: the operation's
    key is dropped. *)
Lemma apply_key_prefix (self : KV.t) (op : Operation.t) (p : string) :
  KV.prefix self = Some p → p ≠ "" → KV.apply_key self op = p.
Proof.
  intros Hself Hp. unfold KV.apply_key. rewrite Hself. by apply or_truthy.
Qed.

(** Without a prefix the key is the operation's. *)
Lemma apply_key_no_prefix (self : KV.t) (op : Operation.t) :
  KV.prefix self = None ∨ KV.prefix self = Some "" →
  KV.apply_key self op = Operation.key op.
Proof.
  intros [Hself | Hself]; unfold KV.apply_key; rewrite Hself; reflexivity.
Qed.

(** C1.  A façade whose prefix is ["svc/"] issuing [get("config")] should
    send the key ["svc/config"].  The code evaluates
    [self.prefix or ("" + op.key)]: the key it sends is ["svc/"], and the
    request path is ["/kv/svc/"], whatever the transport. *)
Theorem C1_prefix_replaces_key (adapter : Adapter.t) :
  let kv := KV.mk adapter (Some "svc/") in
  let op := Operation.get "config" None in
  KV.apply_key kv op = "svc/"
  ∧ KV.apply_key kv op ≠ "svc/" +:+ "config"
  ∧ Request.path (KV.apply_request kv op) = "/kv/svc/".
Proof.
  intros kv op. split; [|split].
  - by apply apply_key_prefix.
  - rewrite (apply_key_prefix kv op "svc/"); [discriminate | reflexivity | discriminate].
  - reflexivity.
Qed.

(** ** The HTTP method *)

(** Membership in a list of literals, as a disjunction of equations. *)
Ltac in_literals :=
  rewrite ?list_elem_of_In in *; simpl in *; intuition congruence.

Lemma get_method_delete (op : Operation.t) :
  Operation.verb op ∈ ["delete"; "delete-cas"; "delete-tree"] → _get_method op = "DELETE".
Proof.
  intros Hv. unfold _get_method. rewrite bool_decide_eq_true_2; [done|].
  in_literals.
Qed.

Lemma get_method_put (op : Operation.t) :
  Operation.verb op ∈ ["set"; "cas"; "lock"; "unlock"] → _get_method op = "PUT".
Proof.
  intros Hv. unfold _get_method.
  rewrite bool_decide_eq_false_2.
  - rewrite bool_decide_eq_true_2; done.
  - intros Hd. in_literals.
Qed.

Lemma get_method_get (op : Operation.t) :
  Operation.verb op ∉ ["delete"; "delete-cas"; "delete-tree"; "set"; "cas"; "lock"; "unlock"] →
  _get_method op = "GET".
Proof.
  intros Hv. unfold _get_method.
  rewrite !bool_decide_eq_false_2; [done | intros Hd; in_literals | intros Hd; in_literals].
Qed.

(** The methods of the operations the factories build. *)
Lemma factory_methods (key value : string) (v : pyval) (i : Z) (flags : option Z)
    (raw : option bool) (recurse : bool) :
  _get_method (Operation.get key raw) = "GET"
  ∧ _get_method (Operation.get_tree key recurse value) = "GET"
  ∧ _get_method (Operation.list_tree key recurse value) = "GET"
  ∧ _get_method (Operation.set key v flags) = "PUT"
  ∧ _get_method (Operation.set_cas key v i flags) = "PUT"
  ∧ _get_method (Operation.delete key) = "DELETE"
  ∧ _get_method (Operation.delete_cas key i) = "DELETE"
  ∧ _get_method (Operation.delete_tree key) = "DELETE".
Proof. repeat split; reflexivity. Qed.

(** C2.  The operations built by [lock] and [unlock] should go out as PUT.
    Their verbs are ["acquire"] and ["release"], which [_get_method] does
    not list (it lists ["lock"] and ["unlock"], verbs no factory
    produces): both go out as GET. *)
Theorem C2_lock_unlock_method_is_GET (key value : string) (flags : option Z) :
  Operation.verb (Operation.lock key value flags) = "acquire"
  ∧ Operation.verb (Operation.unlock key value flags) = "release"
  ∧ _get_method (Operation.lock key value flags) = "GET"
  ∧ _get_method (Operation.unlock key value flags) = "GET".
Proof. repeat split; reflexivity. Qed.

(** ** Missing keys *)

(** A 404 reaches the façade as a response whose content is [None]: the
    adapter drops the body and the status check lets a 404 pass. *)
Lemma request_404 (adapter : Adapter.t) (req : Request.t) (http : HttpResponse) :
  Adapter.session adapter req = Ok http →
  status_code http = 404 →
  ∃ response, Adapter.request adapter req = Ok response
    ∧ Response.content response = PNone
    ∧ Response.status response = 404.
Proof.
  intros Hsend H404. unfold Adapter.request. rewrite Hsend. simpl.
  rewrite H404. simpl. eexists. split; [reflexivity|]. by split.
Qed.

(** An exception of the transport, or of the status check, passes through
    [apply] unchanged. *)
Lemma apply_propagates (self : KV.t) (op : Operation.t) (default : pyval) (e : exn) :
  Adapter.request (KV._adapter self) (KV.apply_request self op) = Raise e →
  KV.apply self op default = Raise e.
Proof. intros Hreq. unfold KV.apply. by rewrite Hreq. Qed.

(** C3, as stated, fails: on a 404 without a default the façade raises the
    built-in [KeyError], carrying the operation's key, and not the
    library's [NotFound]. *)
Lemma C3_missing_key_raises_KeyError :
  KV.get (KV.mk (answering 404 PNone) None) "missing" None = Raise (KeyError "missing")
  ∧ KV.get (KV.mk (answering 404 PNone) None) "missing" None ≠ Raise (Consul NotFound).
Proof. split; [reflexivity | discriminate]. Qed.

(** C3, amended.  When the transport's response has no content (a 404):
    without a default [apply] raises [KeyError] with the operation's own
    key, with a default it returns the default.  Any other content is
    decoded and returned, the default playing no part. *)
Theorem C3_apply_absent_or_decoded (self : KV.t) (op : Operation.t) (default : pyval)
    (response : Response.t) :
  Adapter.request (KV._adapter self) (KV.apply_request self op) = Ok response →
  KV.apply self op default =
    match Response.content response, default with
    | PNone, PNone => Raise (KeyError (Operation.key op))
    | PNone, _ => Ok default
    | content, _ => _decode_content op content
    end.
Proof.
  intros Hreq. unfold KV.apply. rewrite Hreq. simpl.
  destruct (Response.content response); simpl; try reflexivity.
  destruct default; reflexivity.
Qed.

Lemma C3_apply_absent_or_decoded_witness :
  KV.apply (KV.mk (answering 404 PNone) None) (Operation.get "missing" None) (PStr "fallback")
  = Ok (PStr "fallback").
Proof.
  rewrite (C3_apply_absent_or_decoded _ _ _
             {| Response.method := "GET"; Response.path := "/kv/missing";
                Response.status := 404; Response.content := PNone;
                Response.headers := [] |}); reflexivity.
Defined.

(** ** Tree reads *)

(** C4, as stated, fails: the operation [list_tree] builds carries no
    [recurse] flag at all. *)
Lemma C4_list_tree_has_no_recurse :
  Operation.recurse (Operation.list_tree "a/" false "/") ≠ Some true
  ∧ Operation.recurse (Operation.list_tree "a/" true "/") = None
  ∧ Operation.params_dict (Operation.list_tree "a/" true "/")
    = [("separator", PStr ""); ("keys", PBool true)].
Proof. split; [discriminate | split; reflexivity]. Qed.

(** C4, amended.  Whatever the [recurse] argument, [get_tree] sets the
    [recurse] flag and [list_tree] sets [keys] and leaves [recurse] unset;
    both send an empty separator when the argument is true and the
    caller's separator otherwise.  These are the only parameters sent. *)
Theorem C4_tree_factories (prefix separator : string) (recurse : bool) :
  let sep := if recurse then "" else separator in
  let get_tree := Operation.get_tree prefix recurse separator in
  let list_tree := Operation.list_tree prefix recurse separator in
  Operation.recurse get_tree = Some true
  ∧ Operation.separator get_tree = Some sep
  ∧ Operation.params_dict get_tree = [("separator", PStr sep); ("recurse", PBool true)]
  ∧ Operation.keys list_tree = Some true
  ∧ Operation.recurse list_tree = None
  ∧ Operation.separator list_tree = Some sep
  ∧ Operation.params_dict list_tree = [("separator", PStr sep); ("keys", PBool true)].
Proof. repeat split; reflexivity. Qed.

(** ** Status codes *)

Lemma client_error_range (c : Z) : Utils.is_client_error c = true ↔ 400 ≤ c ≤ 499.
Proof. unfold Utils.is_client_error. rewrite andb_true_iff, !Z.leb_le. done. Qed.

Lemma server_error_range (c : Z) : Utils.is_server_error c = true ↔ 500 ≤ c ≤ 599.
Proof. unfold Utils.is_server_error. rewrite andb_true_iff, !Z.leb_le. done. Qed.

Lemma other_client_error (c : Z) (allow_404 : bool) :
  400 ≤ c ≤ 499 → c ∉ [400; 401; 403; 404; 409] →
  Utils.raise_for_status_error c allow_404 = Raise (Consul RequestError).
Proof.
  intros Hc Hother. unfold Utils.raise_for_status_error.
  rewrite (proj2 (client_error_range c) Hc).
  rewrite !list_elem_of_In in Hother. simpl in Hother.
  repeat match goal with
         | |- context [c =? ?k] => destruct (Z.eqb_spec c k); [exfalso; lia |]
         end.
  reflexivity.
Qed.

Lemma any_server_error (c : Z) (allow_404 : bool) :
  500 ≤ c ≤ 599 → Utils.raise_for_status_error c allow_404 = Raise (Consul ServerError).
Proof.
  intros Hc. unfold Utils.raise_for_status_error.
  rewrite (proj2 (server_error_range c) Hc).
  destruct (Utils.is_client_error c) eqn:Hclient; [|reflexivity].
  apply client_error_range in Hclient. lia.
Qed.

(** C6.  The status check raises [BadRequest] on 400, [ACLDisabled] on 401,
    [Forbidden] on 403, [ConflictError] on 409, [RequestError] on every
    other 4xx but 404, [ServerError] on every 5xx, and nothing on a 404
    that is allowed. *)
Theorem C6_status_errors (allow_404 : bool) :
  Utils.raise_for_status_error 400 allow_404 = Raise (Consul BadRequest)
  ∧ Utils.raise_for_status_error 401 allow_404 = Raise (Consul ACLDisabled)
  ∧ Utils.raise_for_status_error 403 allow_404 = Raise (Consul Forbidden)
  ∧ Utils.raise_for_status_error 409 allow_404 = Raise (Consul ConflictError)
  ∧ Utils.raise_for_status_error 404 true = Ok tt
  ∧ (∀ c, 400 ≤ c ≤ 499 → c ∉ [400; 401; 403; 404; 409] →
       Utils.raise_for_status_error c allow_404 = Raise (Consul RequestError))
  ∧ (∀ c, 500 ≤ c ≤ 599 →
       Utils.raise_for_status_error c allow_404 = Raise (Consul ServerError)).
Proof.
  repeat split; try reflexivity.
  - intros c. apply other_client_error.
  - intros c. apply any_server_error.
Qed.

Lemma C6_status_errors_witness :
  Utils.raise_for_status_error 418 true = Raise (Consul RequestError)
  ∧ Utils.raise_for_status_error 503 true = Raise (Consul ServerError).
Proof.
  destruct (C6_status_errors true) as (_ & _ & _ & _ & _ & H4xx & H5xx).
  split.
  - apply H4xx; [lia|]. rewrite list_elem_of_In. simpl. lia.
  - apply H5xx. lia.
Defined.

(** ** Prefix scoping *)

(** C10.  [prefixed(p)] on a façade with adapter [a] and prefix [p0]
    creates a new façade, distinct from the first, with the same adapter
    and with prefix [p] alone; the first façade, and every other object,
    is as it was. *)
Theorem C10_prefixed_is_fresh (σ : gmap nat KV.t) (self : nat) (a : Adapter.t)
    (p0 : option string) (p : string) :
  σ !! self = Some (KV.mk a p0) →
  ∃ scoped σ',
    KV.prefixed σ self p = Some (scoped, σ')
    ∧ scoped ≠ self
    ∧ σ !! scoped = None
    ∧ σ' !! scoped = Some (KV.mk a (Some p))
    ∧ σ' !! self = Some (KV.mk a p0)
    ∧ ∀ other, other ≠ scoped → σ' !! other = σ !! other.
Proof.
  intros Hself. unfold KV.prefixed, KV.__init__. rewrite Hself. simpl.
  set (scoped := fresh (dom σ)).
  assert (Hfresh : σ !! scoped = None).
  { apply not_elem_of_dom. apply is_fresh. }
  assert (Hne : scoped ≠ self) by congruence.
  exists scoped, (<[scoped := KV.mk a (Some p)]> σ).
  split; [reflexivity|]. split; [done|]. split; [done|].
  split; [apply lookup_insert_eq|].
  split; [by rewrite lookup_insert_ne|].
  intros other Hother. by rewrite lookup_insert_ne.
Qed.

Lemma C10_prefixed_is_fresh_witness :
  ∃ scoped σ',
    KV.prefixed example_store 0%nat "db/" = Some (scoped, σ')
    ∧ scoped ≠ 0%nat
    ∧ example_store !! scoped = None
    ∧ σ' !! scoped = Some (KV.mk (answering 200 (PBool true)) (Some "db/"))
    ∧ σ' !! 0%nat = Some example_facade
    ∧ ∀ other, other ≠ scoped → σ' !! other = example_store !! other.
Proof.
  apply (C10_prefixed_is_fresh example_store 0%nat
           (answering 200 (PBool true)) (Some "svc/") "db/").
  reflexivity.
Defined.

(** ** The request path *)

Section path.

#[local] Abbreviation squeeze := (Str.replace "//" "/").

Lemma squeeze_cons (c : ascii) (r : string) :
  squeeze (String c r) =
    if Ascii.eqb "/" c && Str.startswith r "/"
    then String "/" (Str.replace_from "//" "/" 1 r)
    else String c (squeeze r).
Proof. reflexivity. Qed.

Lemma squeeze_other (c : ascii) (r : string) :
  c ≠ "/"%char → squeeze (String c r) = String c (squeeze r).
Proof.
  intros Hc. rewrite squeeze_cons.
  rewrite (proj2 (Ascii.eqb_neq "/" c)); [reflexivity | congruence].
Qed.

Lemma squeeze_slash_slash (r : string) :
  squeeze (String "/" (String "/" r)) = String "/" (squeeze r).
Proof. reflexivity. Qed.

Lemma squeeze_slash_other (c : ascii) (r : string) :
  c ≠ "/"%char → squeeze (String "/" (String c r)) = String "/" (String c (squeeze r)).
Proof.
  intros Hc. rewrite squeeze_cons.
  change (Str.startswith (String c r) "/") with (Ascii.eqb "/" c && true).
  rewrite (proj2 (Ascii.eqb_neq "/" c)); [| congruence].
  simpl. f_equal. by apply squeeze_other.
Qed.

Lemma collapse_other (c : ascii) (r : string) :
  c ≠ "/"%char → collapse_slashes (String c r) = String c (collapse_slashes r).
Proof.
  intros Hc. simpl. destruct r as [|c' r]; [reflexivity|].
  rewrite (proj2 (Ascii.eqb_neq c "/") Hc). reflexivity.
Qed.

Lemma collapse_slash_slash (r : string) :
  collapse_slashes (String "/" (String "/" r)) = collapse_slashes (String "/" r).
Proof. reflexivity. Qed.

Lemma collapse_slash_other (c : ascii) (r : string) :
  c ≠ "/"%char →
  collapse_slashes (String "/" (String c r)) = String "/" (String c (collapse_slashes r)).
Proof.
  intros Hc. rewrite <- (collapse_other c r Hc).
  change (collapse_slashes (String "/" (String c r)))
    with (if Ascii.eqb "/" "/" && Ascii.eqb c "/"
          then collapse_slashes (String c r)
          else String "/" (collapse_slashes (String c r))).
  rewrite (proj2 (Ascii.eqb_neq c "/") Hc). reflexivity.
Qed.

Lemma longest_slash_run_ge (cur : nat) (s : string) :
  (cur ≤ longest_slash_run cur s)%nat.
Proof.
  revert cur. induction s as [|c r IH]; intros cur; simpl; [lia|].
  destruct (Ascii.eqb c "/"); [specialize (IH (S cur)) |]; lia.
Qed.

Lemma longest_slash (cur : nat) (r : string) :
  longest_slash_run cur (String "/" r) = longest_slash_run (S cur) r.
Proof. reflexivity. Qed.

Lemma longest_other (cur : nat) (c : ascii) (r : string) :
  c ≠ "/"%char →
  longest_slash_run cur (String c r) = Nat.max cur (longest_slash_run 0 r).
Proof. intros Hc. simpl. by rewrite (proj2 (Ascii.eqb_neq c "/") Hc). Qed.

Ltac squeeze_step :=
  repeat match goal with
    | |- context [squeeze (String "/" (String "/" ?r))] =>
        rewrite (squeeze_slash_slash r)
    | H : ?c ≠ "/"%char |- context [squeeze (String "/" (String ?c ?r))] =>
        rewrite (squeeze_slash_other c r H)
    | H : ?c ≠ "/"%char |- context [squeeze (String ?c ?r)] =>
        rewrite (squeeze_other c r H)
    end.

Ltac collapse_step :=
  repeat match goal with
    | |- context [collapse_slashes (String "/" (String "/" ?r))] =>
        rewrite (collapse_slash_slash r)
    | H : ?c ≠ "/"%char |- context [collapse_slashes (String "/" (String ?c ?r))] =>
        rewrite (collapse_slash_other c r H)
    | H : ?c ≠ "/"%char |- context [collapse_slashes (String ?c ?r)] =>
        rewrite (collapse_other c r H)
    end.

(** The first character of [s]: nothing, a slash, or something else. *)
Ltac head_of s c Hc :=
  destruct s as [|c s]; [| destruct (ascii_dec c "/") as [-> | Hc]].

(** Two passes of [replace("//", "/")] reduce every run of at most four
    slashes to one slash. *)
Lemma squeeze_twice (n : nat) (s : string) :
  (String.length s ≤ n)%nat →
  (longest_slash_run 0 s ≤ 4)%nat →
  squeeze (squeeze s) = collapse_slashes s.
Proof.
  revert s. induction n as [|n IH]; intros s Hlen Hrun.
  { destruct s; [reflexivity | simpl in Hlen; lia]. }
  assert (Hrest : ∀ k c r, c ≠ "/"%char →
            (String.length r ≤ n)%nat →
            (Nat.max k (longest_slash_run 0 r) ≤ 4)%nat →
            String c (squeeze (squeeze r)) = String c (collapse_slashes r)).
  { intros k c r _ Hr Hk. f_equal. apply IH; lia. }
  head_of s c0 H0; [reflexivity| |].
  2:{ squeeze_step. collapse_step. rewrite longest_other in Hrun by done.
      simpl in Hlen. apply (Hrest 0%nat); [done | lia | done]. }
  head_of s c1 H1; [reflexivity| |].
  2:{ squeeze_step. collapse_step.
      rewrite longest_slash, longest_other in Hrun by done.
      simpl in Hlen. f_equal. apply (Hrest 1%nat); [done | lia | done]. }
  head_of s c2 H2; [reflexivity| |].
  2:{ squeeze_step. collapse_step.
      rewrite !longest_slash, longest_other in Hrun by done.
      simpl in Hlen. f_equal. apply (Hrest 2%nat); [done | lia | done]. }
  head_of s c3 H3; [reflexivity| |].
  2:{ squeeze_step. collapse_step.
      rewrite !longest_slash, longest_other in Hrun by done.
      simpl in Hlen. f_equal. apply (Hrest 3%nat); [done | lia | done]. }
  head_of s c4 H4; [reflexivity| |].
  2:{ squeeze_step. collapse_step.
      rewrite !longest_slash, longest_other in Hrun by done.
      simpl in Hlen. f_equal. apply (Hrest 4%nat); [done | lia | done]. }
  rewrite !longest_slash in Hrun.
  pose proof (longest_slash_run_ge 5 s). lia.
Qed.

Lemma append_empty (s : string) : s +:+ "" = s.
Proof.
  induction s as [|c s IH]; [reflexivity|].
  change (String c s +:+ "") with (String c (s +:+ "")). by f_equal.
Qed.

(** The path of a key-value request: the key goes through
    [replace("//", "/")] twice, once on its own and once with the rest
    of the path. *)
Lemma kv_path (key : string) :
  path_join ["kv"; key] = "/kv" +:+ squeeze (squeeze ("/" +:+ key)).
Proof.
  unfold path_join, Str.join. cbn [map foldr]. rewrite append_empty.
  change (path_join_str "kv") with "/kv".
  unfold path_join_str.
  change ("/" +:+ "/kv" +:+ ?x) with (String "/" (String "/" (String "k" (String "v" x)))).
  by squeeze_step.
Qed.

Lemma squeeze_leading_slash (r : string) :
  ∃ t, squeeze (String "/" r) = String "/" t.
Proof.
  rewrite squeeze_cons.
  destruct (Ascii.eqb "/" "/" && Str.startswith r "/"); eauto.
Qed.

(** Every key-value path starts with ["/kv/"]. *)
Lemma kv_path_leading (key : string) :
  ∃ rest, path_join ["kv"; key] = "/kv/" +:+ rest.
Proof.
  rewrite kv_path.
  change ("/" +:+ key) with (String "/" key).
  destruct (squeeze_leading_slash key) as [t ->].
  destruct (squeeze_leading_slash t) as [rest ->].
  by exists rest.
Qed.

Lemma collapse_kv (key : string) :
  collapse_slashes ("/kv/" +:+ key) = "/kv" +:+ collapse_slashes ("/" +:+ key).
Proof.
  change ("/kv/" +:+ key) with (String "/" (String "k" (String "v" (String "/" key)))).
  rewrite collapse_slash_other by done. by rewrite collapse_other.
Qed.

End path.

(** C9, as stated, fails: a run of five slashes in the key leaves two
    slashes in the path. *)
Lemma C9_five_slashes_leave_two :
  Request.path (Request.__init__ "GET" ["kv"; "a/////b"] [] PNone) = "/kv/a//b"
  ∧ Request.path (Request.__init__ "GET" ["kv"; "a/////b"] [] PNone)
    ≠ collapse_slashes ("/kv/" +:+ "a/////b").
Proof. split; [reflexivity | discriminate]. Qed.

(** C9, amended.  When the key, led by a slash, has no run of more than
    four consecutive slashes, the request path is ["/kv/"] followed by the
    key with every run of slashes reduced to one slash. *)
Theorem C9_kv_request_path (method key : string) (params : list (string * pyval))
    (content : pyval) :
  (longest_slash_run 0 ("/" +:+ key) ≤ 4)%nat →
  Request.path (Request.__init__ method ["kv"; key] params content)
  = collapse_slashes ("/kv/" +:+ key).
Proof.
  intros Hrun. cbn [Request.__init__ Request.path].
  rewrite kv_path, collapse_kv. f_equal.
  by apply (squeeze_twice (String.length ("/" +:+ key))).
Qed.

Lemma C9_kv_request_path_witness :
  Request.path (Request.__init__ "PUT" ["kv"; "/svc//a///b////c"] [] (PBytes "v"))
  = "/kv/svc/a/b/c".
Proof.
  apply (C9_kv_request_path "PUT" "/svc//a///b////c" [] (PBytes "v")).
  vm_compute. lia.
Defined.


(** ** Folding a flat mapping into a nested one *)

(** In this part [++] is the concatenation of tuples. *)
#[local] Close Scope string_scope.

Section flatdict_facts.
Context {K : Type} `{Countable K} {V : Type}.
Implicit Types (d sub : gmap K (Utils.tree K V)) (p q ks : list K) (v w : V).

Import Utils.

(** A non-empty tuple is its [key_tuple[:-1]] followed by its
    [key_tuple[-1]]. *)
Lemma store_entry_snoc d ks (l : K) v :
  store_entry d (ks ++ [l]) v = assign d ks l v.
Proof. unfold store_entry. by rewrite last_snoc, removelast_last. Qed.

Lemma store_entry_nil d v : store_entry d [] v = Raise IndexError.
Proof. reflexivity. Qed.

Lemma tuple_snoc p : p ≠ [] → ∃ ks (l : K), p = ks ++ [l].
Proof.
  intros Hp. destruct (exists_last Hp) as (ks & l & ->). by exists ks, l.
Qed.

Lemma leaf_at_empty p : leaf_at (∅ : gmap K (tree K V)) p = None.
Proof. destruct p; [done|]. simpl. by rewrite lookup_empty. Qed.

Lemma leaf_at_cons d (k : K) p :
  leaf_at d (k :: p) =
    match setdefault d k with
    | Node sub => leaf_at sub p
    | Leaf v => match p with [] => Some v | _ :: _ => None end
    end.
Proof.
  unfold setdefault. simpl. destruct (d !! k) as [[v|sub]|]; simpl; try done.
  by rewrite leaf_at_empty.
Qed.

Lemma setdefault_insert_eq d (k : K) (t : tree K V) : setdefault (<[k := t]> d) k = t.
Proof. unfold setdefault. by rewrite lookup_insert_eq. Qed.

Lemma setdefault_insert_ne d (k k' : K) (t : tree K V) :
  k ≠ k' → setdefault (<[k := t]> d) k' = setdefault d k'.
Proof. intros Hk. unfold setdefault. by rewrite lookup_insert_ne. Qed.

(** *** One assignment *)

(** The assignment goes through when no leaf sits on the way down. *)
Lemma assign_ok d ks (l : K) v :
  (∀ q, q `prefix_of` ks → leaf_at d q = None) →
  ∃ d', assign d ks l v = Ok d'.
Proof.
  revert d. induction ks as [|k ks IH]; intros d Hfree; simpl; [eauto|].
  pose proof (Hfree [k]) as Hk. rewrite leaf_at_cons in Hk.
  destruct (setdefault d k) as [w|sub] eqn:Hsub.
  { discriminate Hk. apply prefix_cons, prefix_nil. }
  destruct (IH sub) as [sub' ->]; [|simpl; eauto].
  intros q Hq. specialize (Hfree (k :: q)).
  rewrite leaf_at_cons, Hsub in Hfree. apply Hfree. by apply prefix_cons.
Qed.

(** It raises when a leaf sits on the way down. *)
Lemma assign_blocked d ks (l : K) v q w :
  q `prefix_of` ks → leaf_at d q = Some w → raises (assign d ks l v).
Proof.
  revert d q. induction ks as [|k ks IH]; intros d q Hq Hleaf.
  { apply prefix_nil_inv in Hq as ->. discriminate Hleaf. }
  destruct q as [|k' q]; [discriminate Hleaf|].
  pose proof (prefix_cons_inv_1 _ _ _ _ Hq) as ->.
  apply prefix_cons_inv_2 in Hq.
  rewrite leaf_at_cons in Hleaf. simpl.
  destruct (setdefault d k) as [w'|sub]; [by destruct ks|].
  specialize (IH sub q Hq Hleaf).
  destruct (assign sub ks l v); [done | exact I].
Qed.

(** The leaves after an assignment: the new one, and the old ones that
    are not at or below its position. *)
Lemma leaf_at_assign d d' ks (l : K) v q :
  assign d ks l v = Ok d' →
  leaf_at d' q =
    if decide (q = ks ++ [l]) then Some v
    else if decide ((ks ++ [l]) `prefix_of` q) then None
    else leaf_at d q.
Proof.
  revert d d' q. induction ks as [|k ks IH]; intros d d' q Hassign.
  - injection Hassign as <-. cbn [app]. destruct q as [|k' q]; [done|].
    rewrite !leaf_at_cons.
    destruct (decide (l = k')) as [<- | Hne].
    + rewrite setdefault_insert_eq.
      destruct q as [|k'' q].
      * by rewrite decide_True.
      * rewrite decide_False by done.
        rewrite decide_True; [done|]. apply prefix_cons, prefix_nil.
    + rewrite setdefault_insert_ne by done.
      rewrite decide_False by congruence.
      rewrite decide_False; [done|].
      intros Hpre. by apply prefix_cons_inv_1 in Hpre.
  - simpl in Hassign.
    destruct (setdefault d k) as [w|sub] eqn:Hsub; [by destruct ks|].
    destruct (assign sub ks l v) as [sub'|e] eqn:Hrec; [|done].
    injection Hassign as <-. cbn [app].
    destruct q as [|k' q]; [done|].
    rewrite !leaf_at_cons.
    destruct (decide (k = k')) as [<- | Hne].
    + rewrite setdefault_insert_eq, Hsub, (IH _ _ q Hrec).
      destruct (decide (q = ks ++ [l])) as [-> | Hq].
      { by rewrite decide_True. }
      rewrite (decide_False (P := _ :: _ = _)) by congruence.
      destruct (decide ((ks ++ [l]) `prefix_of` q)) as [Hpre | Hpre].
      { rewrite decide_True; [done|]. by apply prefix_cons. }
      rewrite decide_False; [done|].
      intros Hpre'. apply Hpre. by apply prefix_cons_inv_2 in Hpre'.
    + rewrite setdefault_insert_ne by done.
      rewrite decide_False by (simpl; congruence).
      rewrite decide_False; [done|].
      intros Hpre. simpl in Hpre. by apply prefix_cons_inv_1 in Hpre.
Qed.

Lemma assign_cons_inv d d' (k : K) ks (l : K) v :
  assign d (k :: ks) l v = Ok d' →
  ∃ sub sub', setdefault d k = Node sub
    ∧ assign sub ks l v = Ok sub'
    ∧ d' = <[k := Node sub']> d.
Proof.
  simpl. destruct (setdefault d k) as [w|sub]; [by destruct ks|].
  destruct (assign sub ks l v) as [sub'|e] eqn:Hrec; [|done].
  intros [= <-]. by exists sub, sub'.
Qed.

Lemma assign_cons_intro d sub sub' (k : K) ks (l : K) v :
  setdefault d k = Node sub →
  assign sub ks l v = Ok sub' →
  assign d (k :: ks) l v = Ok (<[k := Node sub']> d).
Proof. intros Hsub Hrec. simpl. by rewrite Hsub, Hrec. Qed.

Lemma incomparable_sym p q : incomparable p q → incomparable q p.
Proof. intros [? ?]. by split. Qed.

Lemma incomparable_head (k k' : K) p q :
  incomparable (k :: p) (k' :: q) → p = [] → k ≠ k'.
Proof.
  intros [Hpq _] -> <-. apply Hpq. apply prefix_cons, prefix_nil.
Qed.

Lemma incomparable_tail (k : K) p q :
  incomparable (k :: p) (k :: q) → incomparable p q.
Proof.
  intros [Hpq Hqp]. split; intros Hpre; [apply Hpq | apply Hqp]; by apply prefix_cons.
Qed.

(** *** Two assignments *)

(** Two assignments at positions neither of which is above the other can
    be exchanged. *)
Lemma assign_swap d d1 d12 ks1 (l1 : K) v1 ks2 (l2 : K) v2 :
  incomparable (ks1 ++ [l1]) (ks2 ++ [l2]) →
  assign d ks1 l1 v1 = Ok d1 →
  assign d1 ks2 l2 v2 = Ok d12 →
  ∃ d2, assign d ks2 l2 v2 = Ok d2 ∧ assign d2 ks1 l1 v1 = Ok d12.
Proof.
  revert d d1 d12 ks2.
  induction ks1 as [|k1 ks1 IH]; intros d d1 d12 ks2 Hinc H1 H2; cbn [app] in Hinc.
  - injection H1 as <-. destruct ks2 as [|k2 ks2]; cbn [app] in Hinc.
    + injection H2 as <-.
      pose proof (incomparable_head _ _ _ _ Hinc eq_refl) as Hne.
      exists (<[l2 := Leaf v2]> d). split; [done|]. simpl. f_equal.
      by apply insert_insert_ne.
    + pose proof (incomparable_head _ _ _ _ Hinc eq_refl) as Hne.
      apply assign_cons_inv in H2 as (sub & sub' & Hsub & Hrec & ->).
      rewrite setdefault_insert_ne in Hsub by done.
      exists (<[k2 := Node sub']> d). split; [by eapply assign_cons_intro|].
      simpl. f_equal. by apply insert_insert_ne.
  - apply assign_cons_inv in H1 as (s0 & s1 & Hs0 & Hs1 & ->).
    destruct ks2 as [|k2 ks2]; cbn [app] in Hinc.
    + injection H2 as <-.
      pose proof (incomparable_head _ _ _ _ (incomparable_sym _ _ Hinc) eq_refl) as Hne.
      exists (<[l2 := Leaf v2]> d). split; [done|].
      rewrite (assign_cons_intro _ s0 s1); [| by rewrite setdefault_insert_ne | done].
      f_equal. by apply insert_insert_ne.
    + apply assign_cons_inv in H2 as (t0 & t1 & Ht0 & Ht1 & ->).
      destruct (decide (k1 = k2)) as [<- | Hne].
      * rewrite setdefault_insert_eq in Ht0. injection Ht0 as <-.
        destruct (IH s0 s1 t1 ks2 (incomparable_tail _ _ _ Hinc) Hs1 Ht1)
          as (s2 & Hs2 & Hs12).
        exists (<[k1 := Node s2]> d). split; [by eapply assign_cons_intro|].
        rewrite (assign_cons_intro _ s2 t1); [| by rewrite setdefault_insert_eq | done].
        by rewrite !insert_insert_eq.
      * rewrite setdefault_insert_ne in Ht0 by done.
        exists (<[k2 := Node t1]> d). split; [by eapply assign_cons_intro|].
        rewrite (assign_cons_intro _ s0 s1); [| by rewrite setdefault_insert_ne | done].
        f_equal. by apply insert_insert_ne.
Qed.

(** An assignment above an earlier one replaces the subtree the earlier
    one went into: the outcome is as if the earlier one had not been. *)
Lemma assign_over d d1 ksq (lq : K) w ksp (lp : K) v :
  proper_prefix (ksp ++ [lp]) (ksq ++ [lq]) →
  assign d ksq lq w = Ok d1 →
  assign d1 ksp lp v = assign d ksp lp v.
Proof.
  revert d d1 ksq. induction ksp as [|k ksp IH]; intros d d1 ksq [Hpre Hne] Hq.
  - destruct ksq as [|k' ksq]; cbn [app] in *.
    { destruct Hne. apply prefix_cons_inv_1 in Hpre. by subst. }
    apply prefix_cons_inv_1 in Hpre as ->.
    apply assign_cons_inv in Hq as (sub & sub' & _ & _ & ->).
    simpl. by rewrite insert_insert_eq.
  - destruct ksq as [|k' ksq]; cbn [app] in *.
    { apply prefix_cons_inv_2, prefix_nil_inv in Hpre. by destruct ksp. }
    pose proof (prefix_cons_inv_1 _ _ _ _ Hpre) as <-.
    apply prefix_cons_inv_2 in Hpre.
    apply assign_cons_inv in Hq as (sub & sub' & Hsub & Hrec & ->).
    simpl. rewrite setdefault_insert_eq, Hsub.
    rewrite (IH sub sub' ksq); [| split; [done | congruence] | done].
    destruct (assign sub ksp lp v); simpl; [|done].
    by rewrite insert_insert_eq.
Qed.

(** *** Inner mappings *)

Lemma node_at_empty q : q ≠ [] → node_at (∅ : gmap K (tree K V)) q = false.
Proof. destruct q; [done|]. intros _. simpl. by rewrite lookup_empty. Qed.

(** The inner mappings after an assignment: those on the way down to the
    new leaf, and the old ones that are not at or below its position. *)
Lemma node_at_assign d d' ks (l : K) v q :
  assign d ks l v = Ok d' →
  node_at d' q =
    if decide (q `prefix_of` ks) then true
    else if decide ((ks ++ [l]) `prefix_of` q) then false
    else node_at d q.
Proof.
  revert d d' q. induction ks as [|k ks IH]; intros d d' q Hassign.
  - injection Hassign as <-. cbn [app]. destruct q as [|k' q].
    { by rewrite decide_True. }
    rewrite decide_False by (intros Hpre; by apply prefix_nil_inv in Hpre).
    simpl. destruct (decide (l = k')) as [<- | Hne].
    + rewrite lookup_insert_eq. rewrite decide_True; [done|].
      apply prefix_cons, prefix_nil.
    + rewrite lookup_insert_ne by done. rewrite decide_False; [done|].
      intros Hpre. by apply prefix_cons_inv_1 in Hpre.
  - apply assign_cons_inv in Hassign as (s0 & s1 & Hs0 & Hs1 & ->). cbn [app].
    destruct q as [|k' q].
    { rewrite decide_True; [done | apply prefix_nil]. }
    simpl. destruct (decide (k = k')) as [<- | Hne].
    + rewrite lookup_insert_eq, (IH _ _ q Hs1).
      destruct (decide (q `prefix_of` ks)) as [Hq | Hq].
      { rewrite decide_True; [done | by apply prefix_cons]. }
      rewrite (decide_False (P := _ :: _ `prefix_of` _ :: ks)).
      2:{ intros Hpre. apply Hq. by apply prefix_cons_inv_2 in Hpre. }
      destruct (decide ((ks ++ [l]) `prefix_of` q)) as [Hpre | Hpre].
      { rewrite decide_True; [done | by apply prefix_cons]. }
      rewrite decide_False.
      2:{ intros Hpre'. apply Hpre. by apply prefix_cons_inv_2 in Hpre'. }
      unfold setdefault in Hs0. destruct (d !! k) as [[w|sub]|]; simplify_eq/=; [done|].
      apply node_at_empty. intros ->. apply Hq, prefix_nil.
    + rewrite lookup_insert_ne by done.
      rewrite decide_False by (intros Hpre; by apply prefix_cons_inv_1 in Hpre).
      rewrite decide_False; [done|].
      intros Hpre. by apply prefix_cons_inv_1 in Hpre.
Qed.

(** *** One entry *)

Lemma store_entry_inv d d' p v :
  store_entry d p v = Ok d' →
  ∃ ks (l : K), p = ks ++ [l] ∧ assign d ks l v = Ok d'.
Proof.
  intros Hstore. destruct (decide (p = [])) as [-> | Hp]; [done|].
  destruct (tuple_snoc p Hp) as (ks & l & ->).
  rewrite store_entry_snoc in Hstore. by exists ks, l.
Qed.

Lemma store_entry_swap d d1 d12 p v q w :
  incomparable p q →
  store_entry d p v = Ok d1 →
  store_entry d1 q w = Ok d12 →
  ∃ d2, store_entry d q w = Ok d2 ∧ store_entry d2 p v = Ok d12.
Proof.
  intros Hinc Hp Hq.
  apply store_entry_inv in Hp as (ks1 & l1 & -> & H1).
  apply store_entry_inv in Hq as (ks2 & l2 & -> & H2).
  destruct (assign_swap _ _ _ _ _ _ _ _ _ Hinc H1 H2) as (d2 & H3 & H4).
  exists d2. by rewrite !store_entry_snoc.
Qed.

Lemma leaf_at_store_entry d d' p v q :
  store_entry d p v = Ok d' →
  leaf_at d' q =
    if decide (q = p) then Some v
    else if decide (p `prefix_of` q) then None
    else leaf_at d q.
Proof.
  intros Hstore. apply store_entry_inv in Hstore as (ks & l & -> & Hassign).
  by apply leaf_at_assign.
Qed.

Lemma store_entry_ok d p v :
  p ≠ [] →
  (∀ q w, leaf_at d q = Some w → incomparable q p) →
  ∃ d', store_entry d p v = Ok d'.
Proof.
  intros Hp Hleaves. destruct (tuple_snoc p Hp) as (ks & l & ->).
  rewrite store_entry_snoc. apply assign_ok. intros q Hq.
  destruct (leaf_at d q) as [w|] eqn:Hleaf; [|done].
  destruct (Hleaves q w Hleaf) as [Hqp _]. destruct Hqp. by apply prefix_app_r.
Qed.

(** *** All entries *)

Lemma fold_entries_cons d p v (items : list (list K * V)) :
  fold_entries d ((p, v) :: items) = d' ← store_entry d p v; fold_entries d' items.
Proof. reflexivity. Qed.

Lemma fold_entries_app d (l1 l2 : list (list K * V)) :
  fold_entries d (l1 ++ l2) = d' ← fold_entries d l1; fold_entries d' l2.
Proof.
  revert d. induction l1 as [|[p v] l1 IH]; intros d; [done|].
  cbn [app]. rewrite !fold_entries_cons.
  destruct (store_entry d p v) as [d'|e]; simpl; [apply IH | done].
Qed.

(** Distinct key tuples of a prefix-free mapping are incomparable. *)
Lemma prefix_free_incomparable (dct : list (list K * V)) p q :
  prefix_free dct → p ∈ dct.*1 → q ∈ dct.*1 → p ≠ q → incomparable p q.
Proof.
  intros Hfree Hp Hq Hne. split; intros Hpre.
  - by apply (Hfree p q Hp Hq).
  - by apply (Hfree q p Hq Hp).
Qed.

Lemma prefix_free_cons p v (dct : list (list K * V)) :
  prefix_free ((p, v) :: dct) → prefix_free dct.
Proof.
  intros Hfree p' q' Hp' Hq'. apply Hfree; rewrite fmap_cons; by apply list_elem_of_further.
Qed.

Lemma head_incomparable p v (dct : list (list K * V)) q :
  NoDup ((p, v) :: dct).*1 → prefix_free ((p, v) :: dct) → q ∈ dct.*1 →
  incomparable p q.
Proof.
  rewrite fmap_cons. intros Hnodup Hfree Hq.
  apply NoDup_cons in Hnodup as [Hnotin _].
  apply (prefix_free_incomparable ((p, v) :: dct)); rewrite ?fmap_cons.
  - done.
  - apply list_elem_of_here.
  - by apply list_elem_of_further.
  - intros ->. by apply Hnotin.
Qed.

Lemma prefix_free_perm (l l' : list (list K * V)) :
  l ≡ₚ l' → prefix_free l → prefix_free l'.
Proof.
  intros Hperm Hfree p q Hp Hq.
  apply Hfree; by rewrite Hperm.
Qed.

(** The fold goes through, and its leaves are those it started from and
    one per entry. *)
Lemma fold_entries_leaves (items : list (list K * V)) d :
  NoDup items.*1 →
  (∀ p, p ∈ items.*1 → p ≠ []) →
  prefix_free items →
  (∀ q w, leaf_at d q = Some w → ∀ p, p ∈ items.*1 → incomparable q p) →
  ∃ t, fold_entries d items = Ok t
    ∧ ∀ q w, leaf_at t q = Some w ↔ leaf_at d q = Some w ∨ (q, w) ∈ items.
Proof.
  revert d. induction items as [|[p v] items IH]; intros d Hnodup Hne Hfree Hd.
  { exists d. split; [done|]. intros q w. rewrite elem_of_nil. tauto. }
  assert (Hp : p ∈ ((p, v) :: items).*1) by (rewrite fmap_cons; apply list_elem_of_here).
  destruct (store_entry_ok d p v) as [d' Hstore].
  { by apply Hne. }
  { intros q w Hleaf. by apply (Hd q w). }
  pose proof (λ q, leaf_at_store_entry d d' p v q Hstore) as Hd'.
  rewrite fold_entries_cons, Hstore. simpl.
  destruct (IH d') as (t & Hfold & Hleaves).
  - rewrite fmap_cons in Hnodup. by apply NoDup_cons in Hnodup as [_ ?].
  - intros p' Hp'. apply Hne. rewrite fmap_cons. by apply list_elem_of_further.
  - by eapply prefix_free_cons.
  - intros q w. rewrite Hd'. intros Hleaf p' Hp'.
    destruct (decide (q = p)) as [-> | _].
    { by eapply head_incomparable. }
    destruct (decide (p `prefix_of` q)); [done|].
    apply (Hd q w Hleaf). rewrite fmap_cons. by apply list_elem_of_further.
  - exists t. split; [done|]. intros q w. rewrite Hleaves, Hd', elem_of_cons.
    destruct (decide (q = p)) as [-> | Hqp].
    + split.
      * intros [[= ->] | Hin]; [by right; left | by right; right].
      * intros [Hleaf | [[= ->] | Hin]]; [| by left | by right].
        destruct (Hd p w Hleaf p Hp) as [Hpp _]. by destruct Hpp.
    + destruct (decide (p `prefix_of` q)) as [Hpre | Hpre].
      * split.
        -- intros [? | Hin]; [done | by right; right].
        -- intros [Hleaf | [[= -> _] | Hin]]; [| done | by right].
           destruct (Hd q w Hleaf p Hp) as [_ Hpq]. by destruct Hpq.
      * split.
        -- intros [Hleaf | Hin]; [by left | by right; right].
        -- intros [Hleaf | [[= -> _] | Hin]]; [by left | done | by right].
Qed.

(** The order of the entries does not matter. *)
Lemma fold_entries_perm (l l' : list (list K * V)) :
  l ≡ₚ l' →
  NoDup l.*1 → prefix_free l →
  ∀ d t, fold_entries d l = Ok t → fold_entries d l' = Ok t.
Proof.
  induction 1 as [|[p v] l l' Hperm IH|[q w] [p v] l|l l' l'' Hperm IH Hperm' IH'];
    intros Hnodup Hfree d t Hfold.
  - done.
  - rewrite fold_entries_cons in Hfold |- *.
    destruct (store_entry d p v) as [d'|e]; [|done].
    apply IH; [| by eapply prefix_free_cons | done].
    rewrite fmap_cons in Hnodup. by apply NoDup_cons in Hnodup as [_ ?].
  - assert (Hinc : incomparable p q).
    { eapply head_incomparable; [done..|]. rewrite fmap_cons. apply list_elem_of_here. }
    rewrite !fold_entries_cons in Hfold |- *.
    destruct (store_entry d p v) as [d1|e] eqn:H1; [|done].
    cbn [mbind outcome_bind] in Hfold. rewrite fold_entries_cons in Hfold.
    destruct (store_entry d1 q w) as [d12|e] eqn:H2; [|done].
    destruct (store_entry_swap _ _ _ _ _ _ _ Hinc H1 H2) as (d2 & -> & H4).
    cbn [mbind outcome_bind]. by rewrite fold_entries_cons, H4.
  - apply IH'.
    + by rewrite <- Hperm.
    + by eapply prefix_free_perm.
    + by apply IH.
Qed.

Lemma proper_prefix_snoc p ks (l : K) :
  proper_prefix p (ks ++ [l]) → p `prefix_of` ks.
Proof.
  intros [[k Hk] Hne]. destruct (decide (k = [])) as [-> | Hnil].
  { rewrite app_nil_r in Hk. by destruct Hne. }
  destruct (tuple_snoc k Hnil) as (k' & l' & ->).
  rewrite app_assoc in Hk. apply app_inj_tail in Hk as [-> _].
  by exists k'.
Qed.

Lemma prefix_proper_snoc q ks (l : K) :
  q `prefix_of` ks → proper_prefix q (ks ++ [l]).
Proof.
  intros Hpre. split; [by apply prefix_app_r|].
  intros ->. by apply prefix_snoc_not in Hpre.
Qed.

Lemma node_at_store_entry d d' p v q :
  store_entry d p v = Ok d' →
  node_at d' q = true ↔ proper_prefix q p ∨ (¬ p `prefix_of` q ∧ node_at d q = true).
Proof.
  intros Hstore. apply store_entry_inv in Hstore as (ks & l & -> & Hassign).
  rewrite (node_at_assign _ _ _ _ _ q Hassign).
  destruct (decide (q `prefix_of` ks)) as [Hq | Hq].
  { split; [intros _; left; by apply prefix_proper_snoc | done]. }
  destruct (decide ((ks ++ [l]) `prefix_of` q)) as [Hpre | Hpre].
  - split; [done|]. intros [Hproper | [? _]]; [|done].
    by apply proper_prefix_snoc in Hproper.
  - split; [by right|]. intros [Hproper | [_ ?]]; [|done].
    by apply proper_prefix_snoc in Hproper.
Qed.

(** The inner mappings of the fold's result are those it started from
    and those on the way down to its entries. *)
Lemma fold_entries_nodes (items : list (list K * V)) d t :
  prefix_free items →
  (∀ q, node_at d q = true → ∀ p, p ∈ items.*1 → ¬ p `prefix_of` q) →
  fold_entries d items = Ok t →
  ∀ q, node_at t q = true ↔
         node_at d q = true ∨ ∃ p, p ∈ items.*1 ∧ proper_prefix q p.
Proof.
  revert d. induction items as [|[p v] items IH]; intros d Hfree Hd Hfold q.
  { injection Hfold as <-. split; [by left|].
    intros [? | (p & Hp & _)]; [done|]. by apply elem_of_nil in Hp. }
  rewrite fold_entries_cons in Hfold.
  destruct (store_entry d p v) as [d'|e] eqn:Hstore; [|done].
  cbn [mbind outcome_bind] in Hfold.
  pose proof (λ q, node_at_store_entry d d' p v q Hstore) as Hd'.
  assert (Hp : p ∈ ((p, v) :: items).*1) by (rewrite fmap_cons; apply list_elem_of_here).
  assert (Htail : ∀ p', p' ∈ items.*1 → p' ∈ ((p, v) :: items).*1).
  { intros p' Hp'. rewrite fmap_cons. by apply list_elem_of_further. }
  rewrite (IH d' (prefix_free_cons _ _ _ Hfree)); [| | done].
  - rewrite Hd'. split.
    + intros [[Hproper | [_ Hnode]] | (p' & Hp' & Hproper)].
      * right. by exists p.
      * by left.
      * right. exists p'. split; [by apply Htail | done].
    + intros [Hnode | (p' & Hp' & Hproper)].
      * left. right. split; [by apply Hd | done].
      * rewrite fmap_cons, elem_of_cons in Hp'. destruct Hp' as [-> | Hp'].
        -- by left; left.
        -- right. by exists p'.
  - intros q' Hnode p' Hp' Hpre. apply Hd' in Hnode as [[Hq'p Hne] | [_ Hnode]].
    + apply (Hfree p' p (Htail p' Hp') Hp). split; [by etrans|].
      intros ->. apply Hne. apply prefix_length_eq; [done|]. by apply prefix_length.
    + by apply (Hd q' Hnode p' (Htail p' Hp')).
Qed.

(** *** Conflicting entries *)

Lemma raises_bind {A B : Type} (r : outcome A) (k : A → outcome B) :
  raises r → raises (r ≫= k).
Proof. by destruct r. Qed.

(** Once a leaf sits above the position of an entry still to come, the
    fold raises: at that entry, if not before. *)
Lemma fold_entries_blocked (items rest : list (list K * V)) d r u ks (l : K) w :
  leaf_at d r = Some u →
  r `prefix_of` ks →
  raises (fold_entries d (items ++ (ks ++ [l], w) :: rest)).
Proof.
  revert d r u. induction items as [|[p v] items IH]; intros d r u Hleaf Hpre; cbn [app].
  - rewrite fold_entries_cons, store_entry_snoc.
    apply raises_bind. by eapply assign_blocked.
  - rewrite fold_entries_cons.
    destruct (store_entry d p v) as [d'|e] eqn:Hstore; [|exact I].
    cbn [mbind outcome_bind].
    pose proof (λ q, leaf_at_store_entry d d' p v q Hstore) as Hd'.
    destruct (decide (r = p)) as [-> | Hne].
    { apply (IH d' p v); [|done]. by rewrite Hd', decide_True. }
    destruct (decide (p `prefix_of` r)) as [Hpr | Hpr].
    { apply (IH d' p v); [by rewrite Hd', decide_True | by etrans]. }
    apply (IH d' r u); [|done].
    by rewrite Hd', decide_False, decide_False.
Qed.

End flatdict_facts.

#[local] Open Scope string_scope.
#[local] Open Scope Z_scope.

(** C7.  Folding [{("x","y"): "1", ("x","z"): "2"}] gives
    [{"x": {"y": "1", "z": "2"}}].  In general, for a flat mapping whose key
    tuples are non-empty and none a proper prefix of another, the fold
    returns a nested mapping whose leaves are exactly the entries, each at
    the position its tuple names, whose inner mappings are exactly those
    on the way down to an entry, and every order of the entries gives this
    same mapping. *)
Theorem C7_flatdict_to_dict_nests :
  Utils.flatdict_to_dict [(["x"; "y"], "1"); (["x"; "z"], "2")]
    = Ok {[ "x" := Utils.Node {[ "y" := Utils.Leaf "1"; "z" := Utils.Leaf "2" ]} ]}
  ∧ ∀ (K : Type) `(Countable K) (V : Type) (dct : list (list K * V)),
      NoDup dct.*1 →
      (∀ p, p ∈ dct.*1 → p ≠ []) →
      prefix_free dct →
      ∃ t, Utils.flatdict_to_dict dct = Ok t
        ∧ (∀ p v, leaf_at t p = Some v ↔ (p, v) ∈ dct)
        ∧ (∀ q, node_at t q = true ↔ q = [] ∨ ∃ p, p ∈ dct.*1 ∧ proper_prefix q p)
        ∧ (∀ dct', dct' ≡ₚ dct → Utils.flatdict_to_dict dct' = Ok t).
Proof.
  split; [reflexivity|].
  intros K ? ? V dct Hnodup Hne Hfree.
  destruct (fold_entries_leaves dct ∅ Hnodup Hne Hfree) as (t & Hfold & Hleaves).
  { intros q w Hleaf. by rewrite leaf_at_empty in Hleaf. }
  assert (Hroot : ∀ q, node_at (∅ : gmap K (Utils.tree K V)) q = true ↔ q = []).
  { intros q. split; [|by intros ->].
    destruct q as [|k q]; [done|]. by rewrite node_at_empty. }
  exists t. split; [done|]. split; [|split].
  - intros p v. rewrite Hleaves, leaf_at_empty.
    split; [by intros [? | ?] | by right].
  - intros q. rewrite (fold_entries_nodes dct ∅ t Hfree); [by rewrite Hroot | | done].
    intros q' Hq' p Hp Hpre. apply Hroot in Hq' as ->.
    apply prefix_nil_inv in Hpre. by apply (Hne p).
  - intros dct' Hperm. by apply (fold_entries_perm dct dct').
Qed.

Lemma C7_flatdict_to_dict_nests_witness :
  Utils.flatdict_to_dict [(["x"; "z"], "2"); (["x"; "y"], "1")]
  = Ok {[ "x" := Utils.Node {[ "y" := Utils.Leaf "1"; "z" := Utils.Leaf "2" ]} ]}.
Proof.
  destruct C7_flatdict_to_dict_nests as [Hexample Hgeneral].
  destruct (Hgeneral string _ _ string [(["x"; "y"], "1"); (["x"; "z"], "2")])
    as (t & Hfold & _ & _ & Horder).
  - apply (bool_decide_unpack _). vm_compute. reflexivity.
  - intros p Hp. rewrite list_elem_of_In in Hp. simpl in Hp.
    destruct Hp as [<- | [<- | []]]; discriminate.
  - intros p q Hp Hq [Hpre Hne].
    rewrite list_elem_of_In in Hp, Hq. simpl in Hp, Hq.
    destruct Hp as [<- | [<- | []]]; destruct Hq as [<- | [<- | []]];
      try (by destruct Hne);
      apply prefix_cons_inv_2, prefix_cons_inv_1 in Hpre; discriminate.
  - rewrite Hexample in Hfold. rewrite Hfold.
    apply Horder. apply perm_swap.
Defined.

(** C8, as stated, fails: when the longer tuple comes first, the shorter
    one replaces its subtree by a leaf and nothing is raised. *)
Lemma C8_longer_first_is_overwritten :
  proper_prefix ["x"] ["x"; "y"]
  ∧ Utils.flatdict_to_dict [(["x"; "y"], "1"); (["x"], "2")] = Ok {[ "x" := Utils.Leaf "2" ]}
  ∧ ¬ raises (Utils.flatdict_to_dict [(["x"; "y"], "1"); (["x"], "2")]).
Proof.
  split; [|split].
  - split; [by exists ["y"] | discriminate].
  - reflexivity.
  - intros [].
Qed.

(** C8, amended.  The leaf values are [str] or [None], as [KV.get_tree]
    makes them.  Take two entries of which the first key tuple, not empty,
    is a proper prefix of the second.  A flat mapping in which the entry
    with the shorter tuple comes before the other, wherever the two are,
    makes the fold raise.  In the mapping made of the two entries with the
    longer tuple first nothing is raised: the result is that of the
    shorter entry alone, whose leaf has replaced the subtree. *)
Theorem C8_conflict_raises_when_leaf_first {K : Type} `{Countable K}
    (p q : list K) (v w : option string) :
  p ≠ [] →
  proper_prefix p q →
  (∀ l1 l2 l3 : list (list K * option string),
     raises (Utils.flatdict_to_dict (l1 ++ (p, v) :: l2 ++ (q, w) :: l3)%list))
  ∧ Utils.flatdict_to_dict [(q, w); (p, v)] = Utils.flatdict_to_dict [(p, v)]
  ∧ ∃ t, Utils.flatdict_to_dict [(p, v)] = Ok t
      ∧ leaf_at t p = Some v
      ∧ leaf_at t q = None.
Proof.
  intros Hp Hpq.
  assert (Hq : q ≠ []).
  { intros ->. destruct Hpq as [Hpre Hne]. by apply prefix_nil_inv in Hpre. }
  destruct (tuple_snoc q Hq) as (ks & l & ->).
  destruct (store_entry_ok (∅ : gmap K (Utils.tree K (option string))) p v Hp) as [t Ht].
  { intros r u Hleaf. by rewrite leaf_at_empty in Hleaf. }
  split; [|split].
  - intros l1 l2 l3. unfold Utils.flatdict_to_dict.
    rewrite fold_entries_app.
    destruct (Utils.fold_entries ∅ l1) as [d0|e]; [|exact I].
    cbn [mbind outcome_bind]. rewrite fold_entries_cons.
    destruct (Utils.store_entry d0 p v) as [d1|e] eqn:Hstore; [|exact I].
    cbn [mbind outcome_bind].
    apply (fold_entries_blocked l2 l3 d1 p v).
    + by rewrite (leaf_at_store_entry _ _ _ _ _ Hstore), decide_True.
    + by eapply proper_prefix_snoc.
  - unfold Utils.flatdict_to_dict. rewrite (fold_entries_cons _ (ks ++ [l])%list).
    destruct (store_entry_ok (∅ : gmap K (Utils.tree K (option string))) (ks ++ [l])%list w Hq)
      as [d1 Hd1].
    { intros r u Hleaf. by rewrite leaf_at_empty in Hleaf. }
    rewrite Hd1. cbn [mbind outcome_bind]. rewrite fold_entries_cons.
    destruct (tuple_snoc p Hp) as (ksp & lp & ->).
    rewrite store_entry_snoc in Hd1. rewrite fold_entries_cons, !store_entry_snoc.
    by rewrite (assign_over ∅ d1 ks l w ksp lp v Hpq Hd1).
  - exists t. unfold Utils.flatdict_to_dict. rewrite fold_entries_cons, Ht.
    split; [done|]. rewrite !(leaf_at_store_entry _ _ _ _ _ Ht).
    split; [by rewrite decide_True|].
    destruct Hpq as [Hpre Hne].
    rewrite decide_False by done. by rewrite decide_True.
Qed.

Lemma C8_conflict_raises_when_leaf_first_witness :
  raises (Utils.flatdict_to_dict [(["x"], None); (["x"; "y"], Some "1")])
  ∧ Utils.flatdict_to_dict [(["x"; "y"], Some "1"); (["x"], None)]
    = Utils.flatdict_to_dict [(["x"], None)].
Proof.
  destruct (C8_conflict_raises_when_leaf_first ["x"] ["x"; "y"] None (Some "1"))
    as (Hraises & Hover & _).
  - discriminate.
  - split; [by exists ["y"] | discriminate].
  - split; [apply (Hraises [] [] []) | exact Hover].
Defined.

(** ** Decoding *)

(** The wire names become the names of the fields of [Record]. *)
Lemma camel_to_snake_wire : Utils.camel_to_snake <$> wire_fields = Record_.fields.
Proof. reflexivity. Qed.

(** Case analysis on a name known to be one of a list of literals. *)
Ltac literal_cases H :=
  rewrite list_elem_of_In in H; simpl in H;
  repeat (destruct H as [<- | H]; [| try (destruct H; fail)]).

Lemma camel_to_snake_wire_inj (k k' : string) :
  k ∈ wire_fields → k' ∈ wire_fields →
  Utils.camel_to_snake k = Utils.camel_to_snake k' → k = k'.
Proof.
  intros Hk Hk' Heq.
  literal_cases Hk; literal_cases Hk'; first [reflexivity | vm_compute in Heq; discriminate Heq].
Qed.

Lemma camel_to_snake_wire_field (k : string) :
  k ∈ wire_fields → Utils.camel_to_snake k ∈ (list_to_set Record_.fields : gset string).
Proof.
  intros Hk. apply elem_of_list_to_set. rewrite <- camel_to_snake_wire.
  by apply list_elem_of_fmap_2.
Qed.

Lemma dict_get_None (items : list (string * pyval)) (k : string) :
  k ∉ items.*1 → dict_get items k = None.
Proof.
  induction items as [|[k' v] items IH]; intros Hk; [done|].
  rewrite fmap_cons, not_elem_of_cons in Hk. destruct Hk as [Hne Hk].
  simpl. rewrite (proj2 (String.eqb_neq k' k)) by done. by apply IH.
Qed.

Lemma dict_get_Some (items : list (string * pyval)) (k : string) :
  k ∈ items.*1 → is_Some (dict_get items k).
Proof.
  induction items as [|[k' v] items IH]; intros Hk.
  { by apply elem_of_nil in Hk. }
  simpl. destruct (String.eqb_spec k' k) as [-> | Hne]; [by eexists|].
  apply IH. rewrite fmap_cons, elem_of_cons in Hk. by destruct Hk as [-> | Hk].
Qed.

(** The keyword arguments built from a mapping with wire names: under
    the translated name is what the mapping has under the wire name. *)
Lemma kwargs_lookup (items : list (string * pyval)) (acc : gmap string pyval) (W : string) :
  NoDup items.*1 →
  (∀ k, k ∈ items.*1 → k ∈ wire_fields) →
  W ∈ wire_fields →
  foldl (fun kwargs kv => <[Utils.camel_to_snake kv.1 := kv.2]> kwargs) acc items
    !! Utils.camel_to_snake W
  = match dict_get items W with
    | Some v => Some v
    | None => acc !! Utils.camel_to_snake W
    end.
Proof.
  revert acc. induction items as [|[k v] items IH]; intros acc Hnodup Hwire HW; [done|].
  rewrite fmap_cons in Hnodup. apply NoDup_cons in Hnodup as [Hk Hnodup].
  assert (Hkw : k ∈ wire_fields).
  { apply Hwire. rewrite fmap_cons. apply list_elem_of_here. }
  cbn [foldl dict_get]. rewrite IH; [| done | | done].
  2:{ intros k' Hk'. apply Hwire. rewrite fmap_cons. by apply list_elem_of_further. }
  destruct (String.eqb_spec k W) as [-> | Hne].
  - rewrite (dict_get_None items W Hk). apply lookup_insert_eq.
  - destruct (dict_get items W); [done|].
    apply lookup_insert_ne. intros Heq. by apply Hne, camel_to_snake_wire_inj.
Qed.

Lemma kwargs_dom (items : list (string * pyval)) (acc : gmap string pyval) :
  (∀ k, k ∈ items.*1 → k ∈ wire_fields) →
  dom acc ⊆ (list_to_set Record_.fields : gset string) →
  dom (foldl (fun kwargs kv => <[Utils.camel_to_snake kv.1 := kv.2]> kwargs) acc items)
    ⊆ (list_to_set Record_.fields : gset string).
Proof.
  revert acc. induction items as [|[k v] items IH]; intros acc Hwire Hacc; [done|].
  cbn [foldl]. apply IH.
  - intros k' Hk'. apply Hwire. rewrite fmap_cons. by apply list_elem_of_further.
  - rewrite dom_insert. apply union_subseteq. split; [|done].
    apply singleton_subseteq_l, camel_to_snake_wire_field, Hwire.
    rewrite fmap_cons. apply list_elem_of_here.
Qed.

(** A key-record mapping becomes its [Record]. *)
Lemma record_of_key_record (items : list (string * pyval)) :
  key_record items → record_of (PDict items) = Ok (Record_of_wire items).
Proof.
  intros (Hnodup & Hwire & Hkey).
  assert (Hget : ∀ W field, In W wire_fields → Utils.camel_to_snake W = field →
            snake_kwargs items !! field = dict_get items W).
  { intros W field HW <-. unfold snake_kwargs.
    rewrite kwargs_lookup; [| done | done | by apply list_elem_of_In].
    rewrite lookup_empty. by destruct (dict_get items W). }
  unfold record_of, Record_.__init__.
  rewrite bool_decide_eq_true_2.
  2:{ apply kwargs_dom; [done|]. rewrite dom_empty. apply empty_subseteq. }
  rewrite (Hget "Key" "key"), (Hget "CreateIndex" "create_index"),
    (Hget "ModifyIndex" "modify_index"), (Hget "LockIndex" "lock_index"),
    (Hget "Flags" "flags"), (Hget "Value" "value"), (Hget "Session" "session")
    by first [reflexivity | simpl; tauto].
  destruct (dict_get_Some items "Key" Hkey) as [key Hk].
  unfold Record_of_wire. by rewrite Hk.
Qed.

Lemma mapM_record_of (ms : list (list (string * pyval))) :
  Forall key_record ms →
  mapM record_of (PDict <$> ms) = Ok (Record_of_wire <$> ms).
Proof.
  induction 1 as [|m ms Hm _ IH]; [done|].
  rewrite !fmap_cons. cbn [mapM]. by rewrite (record_of_key_record m Hm), IH.
Qed.

(** C5.  The wire names of a key record translate to the field names of
    [Record].  A body that is a sequence of key-record mappings becomes
    the list of their Records; for the verb ["get"] (and ["watch"]) the
    decoder returns the first Record when there is one and the empty list
    otherwise, for every other verb it returns the whole list. *)
Theorem C5_decode_key_records (op : Operation.t) (ms : list (list (string * pyval))) :
  Forall key_record ms →
  Utils.camel_to_snake <$> wire_fields = Record_.fields
  ∧ _decode_content op (PList (PDict <$> ms)) =
      if bool_decide (Operation.verb op ∈ ["get"; "watch"])
      then Ok (match ms with
               | m :: _ => Record_of_wire m
               | [] => PList []
               end)
      else Ok (PList (Record_of_wire <$> ms)).
Proof.
  intros Hms. split; [reflexivity|].
  destruct ms as [|m ms].
  { simpl. by destruct (bool_decide _). }
  unfold _decode_content.
  rewrite (mapM_record_of _ Hms), !fmap_cons.
  cbn [forallb is_str is_Mapping andb mbind outcome_bind next_or_self].
  assert (Hmaps : forallb is_Mapping (PDict <$> ms) = true).
  { clear. induction ms as [|m' ms IH]; [done|]. by rewrite fmap_cons. }
  by rewrite Hmaps.
Qed.

Lemma C5_decode_key_records_witness :
  _decode_content (Operation.get "svc/config" None) (PList [PDict example_entry])
    = Ok example_record
  ∧ _decode_content (Operation.get_tree "svc/" true "/") (PList [PDict example_entry])
    = Ok (PList [example_record]).
Proof.
  assert (Hentry : Forall key_record [example_entry]).
  { constructor; [|constructor].
    split; [|split].
    - apply (bool_decide_unpack _). vm_compute. reflexivity.
    - intros k Hk. rewrite list_elem_of_In in *. simpl in *. tauto.
    - rewrite list_elem_of_In. simpl. by right; left. }
  split.
  - apply (proj2 (C5_decode_key_records (Operation.get "svc/config" None)
                    [example_entry] Hentry)).
  - apply (proj2 (C5_decode_key_records (Operation.get_tree "svc/" true "/")
                    [example_entry] Hentry)).
Defined.

(* ===================================================================== *)
(** * Further properties                                                  *)
(* ===================================================================== *)

(** ** Query parameters *)

Lemma filter_fst_sublist {A B : Type} (f : A * B → bool) (l : list (A * B)) :
  (List.filter f l).*1 `sublist_of` l.*1.
Proof.
  induction l as [|x l IH]; [done|]. simpl. destruct (f x).
  - rewrite fmap_cons. by apply sublist_skip.
  - by apply sublist_cons.
Qed.

Lemma elem_of_List_filter {A : Type} (f : A → bool) (l : list A) (x : A) :
  x ∈ List.filter f l ↔ x ∈ l ∧ f x = true.
Proof. rewrite !list_elem_of_In. apply filter_In. Qed.

(** [params_dict] is the ten modifiers, those that are [None] left out. *)
Lemma params_dict_unfold (op : Operation.t) :
  Operation.params_dict op
  = List.filter (fun kv => negb (is_None kv.2)) (drop 3 (Operation.items op)).
Proof. reflexivity. Qed.

(** The query parameters of an operation name modifiers only (never
    [verb], [key] or [value]), each at most once and in declaration order;
    none of them is [None]; and every modifier that is set is among
    them. *)
Theorem params_dict_modifiers (op : Operation.t) :
  (Operation.params_dict op).*1 `sublist_of` modifiers
  ∧ (∀ k v, (k, v) ∈ Operation.params_dict op → v ≠ PNone)
  ∧ (∀ k v, (k, v) ∈ Operation.items op → k ∈ modifiers → v ≠ PNone →
       (k, v) ∈ Operation.params_dict op).
Proof.
  rewrite params_dict_unfold. split; [|split].
  - apply (filter_fst_sublist _ (drop 3 (Operation.items op))).
  - intros k v Hin Hv. apply elem_of_List_filter in Hin as [_ Hnone].
    subst v. discriminate Hnone.
  - intros k v Hin Hk Hv. apply elem_of_List_filter. split.
    + unfold Operation.items in *. cbn [drop].
      rewrite !elem_of_cons in Hin. rewrite !elem_of_cons.
      destruct Hin as [Hin | [Hin | [Hin | Hin]]]; [| | |tauto];
        injection Hin as -> _; rewrite list_elem_of_In in Hk; simpl in Hk;
        exfalso; intuition congruence.
    + by destruct v.
Qed.

(** [Request] drops the parameters that are [None] and keeps the others
    as they are and in order, so that it changes nothing in the parameters
    an operation exports. *)
Theorem request_params_cleaned (method : string) (paths : list string)
    (params : list (string * pyval)) (content : pyval) (op : Operation.t) :
  let req := Request.__init__ method paths params content in
  (∀ k v, (k, v) ∈ Request.params req ↔ (k, v) ∈ params ∧ v ≠ PNone)
  ∧ (Request.params req).*1 `sublist_of` params.*1
  ∧ Request.params (Request.__init__ method paths (Operation.params_dict op) content)
    = Operation.params_dict op.
Proof.
  cbn [Request.__init__ Request.params]. split; [|split].
  - intros k v. rewrite elem_of_List_filter. cbn [snd].
    split; intros [Hin Hv]; (split; [done|]); by destruct v.
  - apply filter_fst_sublist.
  - rewrite params_dict_unfold.
    generalize (drop 3 (Operation.items op)). intros l.
    induction l as [|[k v] l IH]; [done|]. cbn [List.filter snd].
    destruct (negb (is_None v)) eqn:Hv; [|done].
    cbn [List.filter snd]. by rewrite Hv, IH.
Qed.

(** ** The transport *)

(** The adapter on a 404, on a payload that does not decode, and on a
    payload that decodes. *)
Lemma request_cases (self : Adapter.t) (req : Request.t) (http : HttpResponse) :
  Adapter.session self req = Ok http →
  (status_code http = 404 →
     Adapter.request self req =
       Ok (Response.mk (Request.method req) (url_path http) 404 PNone (http_headers http)))
  ∧ (status_code http ≠ 404 →
       ∀ e, body http = Raise e → Adapter.request self req = Raise e)
  ∧ (∀ content, body http = Ok content →
       (400 ≤ status_code http ≤ 599 → status_code http ≠ 404 →
          ∃ e, Utils.raise_for_status_error (status_code http) true = Raise (Consul e)
            ∧ Adapter.request self req = Raise (Consul e))
       ∧ (¬ 400 ≤ status_code http ≤ 599 →
            Adapter.request self req =
              Ok (Response.mk (Request.method req) (url_path http) (status_code http)
                    content (http_headers http)))).
Proof.
  intros Hsend. unfold Adapter.request. rewrite Hsend. cbn [mbind outcome_bind].
  split; [|split].
  - intros H404. rewrite H404. reflexivity.
  - intros H404 e Hbody. by rewrite (proj2 (Z.eqb_neq _ _) H404), Hbody.
  - intros content Hbody. split.
    + intros Herr H404. rewrite (proj2 (Z.eqb_neq _ _) H404), Hbody.
      unfold Utils.raise_for_status_error.
      destruct (Utils.is_client_error (status_code http)) eqn:Hclient.
      * repeat match goal with
               | |- context [?c =? ?k] => destruct (Z.eqb_spec c k); [by eauto|]
               end.
        by eauto.
      * destruct (Utils.is_server_error (status_code http)) eqn:Hserver; [by eauto|].
        apply not_true_iff_false in Hclient, Hserver.
        rewrite client_error_range in Hclient. rewrite server_error_range in Hserver. lia.
    + intros Hok. destruct (Z.eqb_spec (status_code http) 404) as [H404 | _]; [lia|].
      rewrite Hbody. unfold Utils.raise_for_status_error.
      destruct (Utils.is_client_error (status_code http)) eqn:Hclient.
      { apply client_error_range in Hclient. lia. }
      destruct (Utils.is_server_error (status_code http)) eqn:Hserver.
      { apply server_error_range in Hserver. lia. }
      reflexivity.
Qed.

(** What [Adapter.request] makes of the answer of the HTTP client.  On a
    404 it returns a response without content, the payload not being
    looked at.  On every other status the payload is decoded first: if
    that raises, the adapter raises that exception, whatever the status.
    If the payload decodes, a status from 400 to 599 raises the error of
    [raise_for_status_error], the decoded payload being dropped, and every
    other status returns a response whose content is the decoded
    payload. *)
Theorem request_by_status (self : Adapter.t) (req : Request.t) (http : HttpResponse) :
  Adapter.session self req = Ok http →
  (status_code http = 404 →
     Adapter.request self req =
       Ok (Response.mk (Request.method req) (url_path http) 404 PNone (http_headers http)))
  ∧ (status_code http ≠ 404 →
       ∀ e, body http = Raise e → Adapter.request self req = Raise e)
  ∧ (∀ content, body http = Ok content →
       (400 ≤ status_code http ≤ 599 → status_code http ≠ 404 →
          ∃ e, Utils.raise_for_status_error (status_code http) true = Raise (Consul e)
            ∧ Adapter.request self req = Raise (Consul e))
       ∧ (¬ 400 ≤ status_code http ≤ 599 →
            Adapter.request self req =
              Ok (Response.mk (Request.method req) (url_path http) (status_code http)
                    content (http_headers http)))).
Proof. apply request_cases. Qed.

Lemma request_by_status_witness :
  Adapter.request (answering 409 (PBool false)) (Request.__init__ "PUT" ["kv"; "k"] [] PNone)
  = Raise (Consul ConflictError)
  ∧ Adapter.request (garbled 409) (Request.__init__ "PUT" ["kv"; "k"] [] PNone)
    = Raise JSONDecodeError.
Proof.
  split.
  - destruct (request_by_status (answering 409 (PBool false))
                (Request.__init__ "PUT" ["kv"; "k"] [] PNone)
                {| status_code := 409; url_path := "/kv/k"; body := Ok (PBool false);
                   http_headers := [] |} eq_refl)
      as (_ & _ & Hdecoded).
    destruct (Hdecoded (PBool false) eq_refl) as [Herr _].
    destruct Herr as (e & He & ->); [simpl; lia | discriminate |].
    vm_compute in He. by injection He as <-.
  - destruct (request_by_status (garbled 409)
                (Request.__init__ "PUT" ["kv"; "k"] [] PNone)
                {| status_code := 409; url_path := "/kv/k"; body := Raise JSONDecodeError;
                   http_headers := [("Content-Type", "application/json")] |} eq_refl)
      as (_ & Hgarbled & _).
    apply Hgarbled; [discriminate | reflexivity].
Defined.

(** ** What [apply] returns *)

(** A status from 400 to 599 other than 404 makes [apply] raise, whatever
    the operation and whether or not a default is given: the error of that
    status when the payload decodes, and the exception of the decoding
    when it does not. *)
Theorem apply_status_error (self : KV.t) (op : Operation.t) (http : HttpResponse) :
  Adapter.session (KV._adapter self) (KV.apply_request self op) = Ok http →
  400 ≤ status_code http ≤ 599 →
  status_code http ≠ 404 →
  (∀ content, body http = Ok content →
     ∃ e, Utils.raise_for_status_error (status_code http) true = Raise (Consul e)
       ∧ ∀ default, KV.apply self op default = Raise (Consul e))
  ∧ (∀ e, body http = Raise e → ∀ default, KV.apply self op default = Raise e).
Proof.
  intros Hsend Herr H404.
  destruct (request_cases _ _ _ Hsend) as (_ & Hgarbled & Hdecoded). split.
  - intros content Hbody. destruct (Hdecoded content Hbody) as [Hraise _].
    destruct (Hraise Herr H404) as (e & He & Hreq).
    exists e. split; [done|]. intros default. unfold KV.apply. by rewrite Hreq.
  - intros e Hbody default. unfold KV.apply. by rewrite (Hgarbled H404 e Hbody).
Qed.

Lemma apply_status_error_witness :
  KV.apply (KV.mk (answering 500 (PStr "oops")) None) (Operation.get "k" None) (PStr "fallback")
  = Raise (Consul ServerError)
  ∧ KV.apply (KV.mk (garbled 500) None) (Operation.get "k" None) (PStr "fallback")
    = Raise JSONDecodeError.
Proof.
  split.
  - destruct (apply_status_error (KV.mk (answering 500 (PStr "oops")) None)
                (Operation.get "k" None)
                {| status_code := 500; url_path := "/kv/k"; body := Ok (PStr "oops");
                   http_headers := [] |} eq_refl)
      as [Hdecoded _]; [simpl; lia | discriminate |].
    destruct (Hdecoded (PStr "oops") eq_refl) as (e & He & Happly).
    rewrite Happly. vm_compute in He. by injection He as <-.
  - destruct (apply_status_error (KV.mk (garbled 500) None)
                (Operation.get "k" None)
                {| status_code := 500; url_path := "/kv/k"; body := Raise JSONDecodeError;
                   http_headers := [("Content-Type", "application/json")] |} eq_refl)
      as [_ Hgarbled]; [simpl; lia | discriminate |].
    by apply Hgarbled.
Defined.

(** A boolean, string or bytes body is returned as it is, for every
    operation and default: a compare-and-swap or a lock that the service
    answers with [false] returns [false] and raises nothing. *)
Theorem apply_scalar (self : KV.t) (op : Operation.t) (response : Response.t) :
  Adapter.request (KV._adapter self) (KV.apply_request self op) = Ok response →
  is_scalar (Response.content response) = true →
  ∀ default, KV.apply self op default = Ok (Response.content response).
Proof.
  intros Hreq Hscalar default. unfold KV.apply. rewrite Hreq. cbn [mbind outcome_bind].
  by destruct (Response.content response).
Qed.

Lemma apply_scalar_witness :
  KV.set_cas (KV.mk (answering 200 (PBool false)) None) "k" (PBytes "v") 7 None
  = Ok (PBool false).
Proof.
  apply (apply_scalar (KV.mk (answering 200 (PBool false)) None)
           (Operation.set_cas "k" (PBytes "v") 7 None)
           (Response.mk "PUT" "/kv/k" 200 (PBool false) [])); reflexivity.
Defined.

(** A body of an unknown shape is decoded to [None], and [apply] returns
    that [None]: it raises no [KeyError] and does not use the default. *)
Theorem apply_unknown_shape (self : KV.t) (op : Operation.t) (response : Response.t) :
  Adapter.request (KV._adapter self) (KV.apply_request self op) = Ok response →
  unknown_shape (Response.content response) →
  ∀ default, KV.apply self op default = Ok PNone.
Proof.
  intros Hreq Hshape default. unfold KV.apply. rewrite Hreq. cbn [mbind outcome_bind].
  destruct (Response.content response) as [| | | | |l| |]; try done.
  destruct Hshape as [Hstr Hmap]. simpl. by rewrite Hstr, Hmap.
Qed.

Lemma apply_unknown_shape_witness :
  KV.apply (KV.mk (answering 200 (PList [PStr "a"; PInt 1])) None)
    (Operation.get "k" None) (PStr "fallback")
  = Ok PNone.
Proof.
  apply (apply_unknown_shape (KV.mk (answering 200 (PList [PStr "a"; PInt 1])) None)
           (Operation.get "k" None)
           (Response.mk "GET" "/kv/k" 200 (PList [PStr "a"; PInt 1]) []));
    [reflexivity | by split].
Defined.

(** None of the methods of the façade passes a default: on a 404 each of
    them raises [KeyError] with the key, or prefix, it was called with. *)
Theorem facade_missing_key (self : KV.t) (key value separator : string) (v : pyval)
    (index : Z) (flags : option Z) (raw : option bool) (recurse : bool) :
  always_404 (KV._adapter self) →
  KV.get self key raw = Raise (KeyError key)
  ∧ KV.get_records self key recurse separator = Raise (KeyError key)
  ∧ KV.set self key v flags = Raise (KeyError key)
  ∧ KV.set_cas self key v index flags = Raise (KeyError key)
  ∧ KV.lock self key value flags = Raise (KeyError key)
  ∧ KV.unlock self key value flags = Raise (KeyError key)
  ∧ KV.delete self key = Raise (KeyError key)
  ∧ KV.delete_cas self key index = Raise (KeyError key)
  ∧ KV.delete_tree self key = Raise (KeyError key).
Proof.
  intros H404.
  assert (Happly : ∀ op, KV.apply self op PNone = Raise (KeyError (Operation.key op))).
  { intros op. destruct (H404 (KV.apply_request self op)) as (http & Hsend & Hstatus).
    destruct (request_cases _ _ _ Hsend) as (Hreq & _ & _).
    unfold KV.apply. by rewrite (Hreq Hstatus). }
  repeat split; apply Happly.
Qed.

Lemma facade_missing_key_witness :
  KV.delete (KV.mk (answering 404 PNone) None) "gone" = Raise (KeyError "gone").
Proof.
  apply (facade_missing_key (KV.mk (answering 404 PNone) None) "gone" "" "" PNone 0
           None None false).
  intros req. by eexists.
Defined.

(** ** What the decoder does with other lists *)

(** A list of strings (a key listing) is returned whole, whatever the
    verb: ["get"] unwraps Records only. *)
Theorem decode_strings (op : Operation.t) (keys : list string) :
  _decode_content op (PList (PStr <$> keys)) = Ok (PList (PStr <$> keys)).
Proof.
  unfold _decode_content.
  assert (Hstr : forallb is_str (PStr <$> keys) = true).
  { induction keys as [|k keys IH]; [done|]. by rewrite fmap_cons. }
  by rewrite Hstr.
Qed.

Lemma kwargs_lookup_other (items : list (string * pyval)) (acc : gmap string pyval)
    (field : string) :
  (∀ k, k ∈ items.*1 → Utils.camel_to_snake k ≠ field) →
  foldl (fun kwargs kv => <[Utils.camel_to_snake kv.1 := kv.2]> kwargs) acc items !! field
  = acc !! field.
Proof.
  revert acc. induction items as [|[k v] items IH]; intros acc Hother; [done|].
  cbn [foldl]. rewrite IH.
  - apply lookup_insert_ne, Hother. rewrite fmap_cons. apply list_elem_of_here.
  - intros k' Hk'. apply Hother. rewrite fmap_cons. by apply list_elem_of_further.
Qed.

Lemma kwargs_dom_key (items : list (string * pyval)) (acc : gmap string pyval) (k : string) :
  k ∈ items.*1 ∨ Utils.camel_to_snake k ∈ dom acc →
  Utils.camel_to_snake k
    ∈ dom (foldl (fun kwargs kv => <[Utils.camel_to_snake kv.1 := kv.2]> kwargs) acc items).
Proof.
  revert acc. induction items as [|[k' v] items IH]; intros acc Hk.
  { destruct Hk as [Hk | Hk]; [by apply elem_of_nil in Hk | done]. }
  cbn [foldl]. apply IH. rewrite dom_insert, elem_of_union, elem_of_singleton.
  rewrite fmap_cons, elem_of_cons in Hk. cbn [fst snd].
  destruct Hk as [[-> | Hk] | Hk]; [right; by left | by left | right; by right].
Qed.

(** The construction of a Record gives the Record or raises [TypeError]. *)
Lemma record_of_dict_cases (items : list (string * pyval)) :
  (∃ r, record_of (PDict items) = Ok r) ∨ record_of (PDict items) = Raise TypeError.
Proof.
  unfold record_of, Record_.__init__.
  destruct (bool_decide _); [|by right].
  destruct (snake_kwargs items !! "key"); [left; by eexists | by right].
Qed.

(** A mapping with no item for the key, or with an item that names no
    field of [Record], cannot be made a Record. *)
Lemma record_of_bad (items : list (string * pyval)) :
  (∀ k, k ∈ items.*1 → Utils.camel_to_snake k ≠ "key")
  ∨ (∃ k, k ∈ items.*1 ∧ Utils.camel_to_snake k ∉ Record_.fields) →
  record_of (PDict items) = Raise TypeError.
Proof.
  intros [Hnokey | (k & Hk & Hfield)]; unfold record_of, Record_.__init__.
  - destruct (bool_decide _); [|done].
    unfold snake_kwargs. by rewrite kwargs_lookup_other, lookup_empty.
  - rewrite bool_decide_eq_false_2; [done|]. intros Hdom.
    apply Hfield. apply (elem_of_list_to_set (C := gset string)), Hdom.
    apply kwargs_dom_key. by left.
Qed.

Lemma mapM_raises {A B : Type} (f : A → outcome B) (l : list A) (x : A) (e : exn) :
  x ∈ l → f x = Raise e →
  (∀ y, y ∈ l → (∃ b, f y = Ok b) ∨ f y = Raise e) →
  mapM f l = Raise e.
Proof.
  induction l as [|a l IH]; intros Hx Hfx Hall.
  { by apply elem_of_nil in Hx. }
  cbn [mapM].
  destruct (Hall a (list_elem_of_here _ _)) as [[b Hb] | Ha]; [|by rewrite Ha].
  rewrite Hb. cbn [mbind outcome_bind].
  apply elem_of_cons in Hx as [-> | Hx]; [congruence|].
  rewrite IH; [done | done | done |].
  intros y Hy. apply Hall. by apply list_elem_of_further.
Qed.

(** A list of mappings one of which has no item for the key, or has an
    item that names no field of [Record], is not decoded: the decoder
    raises [TypeError], whatever the verb and the other mappings. *)
Theorem decode_bad_record (op : Operation.t) (ms : list (list (string * pyval)))
    (m : list (string * pyval)) :
  m ∈ ms →
  (∀ k, k ∈ m.*1 → Utils.camel_to_snake k ≠ "key")
  ∨ (∃ k, k ∈ m.*1 ∧ Utils.camel_to_snake k ∉ Record_.fields) →
  _decode_content op (PList (PDict <$> ms)) = Raise TypeError.
Proof.
  intros Hm Hbad. unfold _decode_content.
  assert (Hstr : forallb is_str (PDict <$> ms) = false).
  { destruct ms as [|m' ms]; [by apply elem_of_nil in Hm | done]. }
  assert (Hmap : forallb is_Mapping (PDict <$> ms) = true).
  { clear. induction ms as [|m' ms IH]; [done|]. by rewrite fmap_cons. }
  rewrite Hstr, Hmap.
  rewrite (mapM_raises record_of (PDict <$> ms) (PDict m) TypeError); [done | | |].
  - by apply list_elem_of_fmap_2.
  - by apply record_of_bad.
  - intros y Hy. apply list_elem_of_fmap in Hy as (m' & -> & _).
    apply record_of_dict_cases.
Qed.

Lemma decode_bad_record_witness :
  _decode_content (Operation.get_tree "svc/" true "/")
    (PList [PDict example_entry; PDict [("Key", PStr "a"); ("Namespace", PStr "default")]])
  = Raise TypeError.
Proof.
  apply (decode_bad_record (Operation.get_tree "svc/" true "/")
           [example_entry; [("Key", PStr "a"); ("Namespace", PStr "default")]]
           [("Key", PStr "a"); ("Namespace", PStr "default")]).
  - apply list_elem_of_further, list_elem_of_here.
  - right. exists "Namespace". split.
    + apply list_elem_of_further, list_elem_of_here.
    + apply (bool_decide_unpack _). vm_compute. reflexivity.
Defined.

(** ** Scoped façades do not share their prefix *)

(** After [prefixed], the façade and its scoped view are two objects:
    setting the prefix of one (the [prefix] setter) leaves the prefix of
    the other as it was. *)
Theorem scoped_prefix_isolated (σ : gmap nat KV.t) (self : nat) (a : Adapter.t)
    (p0 q : option string) (p : string) :
  σ !! self = Some (KV.mk a p0) →
  ∃ scoped σ',
    KV.prefixed σ self p = Some (scoped, σ')
    ∧ KV.set_prefix σ' scoped q !! scoped = Some (KV.mk a q)
    ∧ KV.set_prefix σ' scoped q !! self = Some (KV.mk a p0)
    ∧ KV.set_prefix σ' self q !! self = Some (KV.mk a q)
    ∧ KV.set_prefix σ' self q !! scoped = Some (KV.mk a (Some p)).
Proof.
  intros Hself. unfold KV.prefixed, KV.__init__. rewrite Hself. cbn [mbind option_bind].
  set (scoped := fresh (dom σ)).
  assert (Hne : scoped ≠ self).
  { intros Heq. pose proof (is_fresh (dom σ)) as Hfresh. fold scoped in Hfresh.
    rewrite Heq in Hfresh. apply Hfresh, elem_of_dom. by eexists. }
  exists scoped, (<[scoped := KV.mk a (Some p)]> σ). split; [done|].
  unfold KV.set_prefix. repeat split.
  - by rewrite lookup_alter_eq, lookup_insert_eq.
  - by rewrite lookup_alter_ne, lookup_insert_ne.
  - by rewrite lookup_alter_eq, lookup_insert_ne, Hself.
  - by rewrite lookup_alter_ne, lookup_insert_eq.
Qed.

Lemma scoped_prefix_isolated_witness :
  ∃ scoped σ',
    KV.prefixed example_store 0%nat "db/" = Some (scoped, σ')
    ∧ KV.set_prefix σ' scoped None !! scoped = Some (KV.mk (answering 200 (PBool true)) None)
    ∧ KV.set_prefix σ' scoped None !! 0%nat = Some example_facade
    ∧ KV.set_prefix σ' 0%nat None !! 0%nat = Some (KV.mk (answering 200 (PBool true)) None)
    ∧ KV.set_prefix σ' 0%nat None !! scoped
      = Some (KV.mk (answering 200 (PBool true)) (Some "db/")).
Proof.
  apply (scoped_prefix_isolated example_store 0%nat (answering 200 (PBool true))
           (Some "svc/") None "db/").
  reflexivity.
Defined.

(** ** [camel_to_snake] *)

Ltac each_ascii c :=
  destruct c as [[] [] [] [] [] [] [] []]; vm_compute; reflexivity.

Lemma lower_char_not_upper (c : ascii) : Str.is_upper (Str.lower_char c) = false.
Proof. each_ascii c. Qed.

Lemma lower_char_underscore (c : ascii) :
  Ascii.eqb (Str.lower_char c) "_" = Ascii.eqb c "_".
Proof. each_ascii c. Qed.

Lemma lower_char_fixed (c : ascii) : Str.is_upper c = false → Str.lower_char c = c.
Proof. intros Hc. unfold Str.lower_char. by rewrite Hc. Qed.

Lemma no_upper_lower (s : string) : no_upper (Str.lower s) = true.
Proof.
  induction s as [|c s IH]; [done|]. cbn [Str.lower no_upper].
  by rewrite lower_char_not_upper, IH.
Qed.

Lemma no_upper_cons (c : ascii) (s : string) :
  no_upper (String c s) = true ↔ Str.is_upper c = false ∧ no_upper s = true.
Proof. cbn [no_upper]. rewrite andb_true_iff, negb_true_iff. done. Qed.

Lemma lower_fixed (s : string) : no_upper s = true → Str.lower s = s.
Proof.
  induction s as [|c s IH]; [done|]. intros [Hc Hs]%no_upper_cons.
  cbn [Str.lower]. by rewrite lower_char_fixed, IH.
Qed.

Lemma sub_CTS_1_fixed (in_word : bool) (s : string) :
  no_upper s = true → Utils.sub_CTS_1 in_word s = s.
Proof.
  revert in_word. induction s as [|c s IH]; intros in_word Hs; [done|].
  apply no_upper_cons in Hs as [_ Hs]. cbn [Utils.sub_CTS_1].
  destruct (in_word && Str.is_lower c); [by rewrite IH|].
  destruct s as [|u [|l s]]; [done | by rewrite IH |].
  pose proof Hs as [Hu _]%no_upper_cons. rewrite Hu, andb_false_r. cbn [andb].
  by rewrite IH.
Qed.

Lemma sub_CTS_2_fixed (s : string) :
  no_upper s = true → Utils.sub_CTS_2 s = s.
Proof.
  induction s as [|c s IH]; [done|]. intros [_ Hs]%no_upper_cons.
  cbn [Utils.sub_CTS_2]. destruct s as [|u s]; [done|].
  pose proof Hs as [Hu _]%no_upper_cons. rewrite Hu, andb_false_r.
  by rewrite IH.
Qed.

Lemma camel_to_snake_lower (name : string) :
  no_upper (Utils.camel_to_snake name) = true.
Proof. apply no_upper_lower. Qed.

Lemma isascii_cons (c : ascii) (s : string) :
  isascii (String c s) = ((nat_of_ascii c <? 128)%nat && isascii s).
Proof. reflexivity. Qed.

Lemma lower_char_ascii (c : ascii) :
  (nat_of_ascii (Str.lower_char c) <? 128)%nat = (nat_of_ascii c <? 128)%nat.
Proof. each_ascii c. Qed.

Lemma isascii_lower (s : string) : isascii (Str.lower s) = isascii s.
Proof.
  induction s as [|c s IH]; [done|]. cbn [Str.lower].
  by rewrite !isascii_cons, lower_char_ascii, IH.
Qed.

Lemma isascii_sub_CTS_1 (n : nat) (in_word : bool) (s : string) :
  (String.length s ≤ n)%nat →
  isascii (Utils.sub_CTS_1 in_word s) = isascii s.
Proof.
  revert in_word s. induction n as [|n IH]; intros in_word s Hlen.
  { destruct s; [done | simpl in Hlen; lia]. }
  destruct s as [|c s]; [done|]. simpl in Hlen. cbn [Utils.sub_CTS_1].
  destruct (in_word && Str.is_lower c).
  { rewrite !isascii_cons, IH by (simpl in *; lia). done. }
  destruct s as [|u [|l s]].
  - done.
  - rewrite !(isascii_cons c), IH by (simpl in *; lia). done.
  - simpl in Hlen.
    destruct (Str.is_dot c && Str.is_upper u && Str.is_lower l).
    + rewrite !isascii_cons, IH by (simpl in *; lia). done.
    + rewrite !(isascii_cons c), IH by (simpl in *; lia). done.
Qed.

Lemma isascii_sub_CTS_2 (n : nat) (s : string) :
  (String.length s ≤ n)%nat →
  isascii (Utils.sub_CTS_2 s) = isascii s.
Proof.
  revert s. induction n as [|n IH]; intros s Hlen.
  { destruct s; [done | simpl in Hlen; lia]. }
  destruct s as [|c s]; [done|]. simpl in Hlen. cbn [Utils.sub_CTS_2].
  destruct s as [|u s]; [done|]. simpl in Hlen.
  destruct ((Str.is_lower c || Str.is_digit c) && Str.is_upper u).
  - rewrite !isascii_cons, IH by (simpl in *; lia). done.
  - rewrite !(isascii_cons c), IH by (simpl in *; lia). done.
Qed.

Lemma camel_to_snake_ascii (name : string) :
  isascii (Utils.camel_to_snake name) = isascii name.
Proof.
  unfold Utils.camel_to_snake. rewrite isascii_lower.
  rewrite (isascii_sub_CTS_2 (String.length (Utils.sub_CTS_1 false name))) by done.
  by rewrite (isascii_sub_CTS_1 (String.length name)).
Qed.

(** Of an ASCII name [camel_to_snake] returns an ASCII name without
    upper-case letter, and an ASCII name without upper-case letters is
    left as it is: translating twice is translating once. *)
Theorem camel_to_snake_idempotent (name : string) :
  isascii name = true →
  isascii (Utils.camel_to_snake name) = true
  ∧ no_upper (Utils.camel_to_snake name) = true
  ∧ Utils.camel_to_snake (Utils.camel_to_snake name) = Utils.camel_to_snake name
  ∧ (no_upper name = true → Utils.camel_to_snake name = name).
Proof.
  intros Hascii.
  assert (Hfixed : ∀ s, no_upper s = true → Utils.camel_to_snake s = s).
  { intros s Hs. unfold Utils.camel_to_snake.
    by rewrite sub_CTS_1_fixed, sub_CTS_2_fixed, lower_fixed. }
  split; [by rewrite camel_to_snake_ascii|].
  split; [apply camel_to_snake_lower|].
  split; [|apply Hfixed]. apply Hfixed, camel_to_snake_lower.
Qed.

Lemma camel_to_snake_idempotent_witness :
  Utils.camel_to_snake (Utils.camel_to_snake "ModifyIndex") = "modify_index".
Proof.
  destruct (camel_to_snake_idempotent "ModifyIndex" eq_refl) as (_ & _ & -> & _).
  reflexivity.
Defined.

Lemma strip_cons (c : ascii) (s : string) :
  strip_underscores (String c s) =
    if Ascii.eqb c "_" then strip_underscores s else String c (strip_underscores s).
Proof. reflexivity. Qed.

Lemma strip_lower (s : string) :
  strip_underscores (Str.lower s) = Str.lower (strip_underscores s).
Proof.
  induction s as [|c s IH]; [done|]. cbn [Str.lower]. rewrite !strip_cons.
  rewrite lower_char_underscore. destruct (Ascii.eqb c "_"); [done|].
  cbn [Str.lower]. by rewrite IH.
Qed.

Lemma strip_sub_CTS_1 (n : nat) (in_word : bool) (s : string) :
  (String.length s ≤ n)%nat →
  strip_underscores (Utils.sub_CTS_1 in_word s) = strip_underscores s.
Proof.
  revert in_word s. induction n as [|n IH]; intros in_word s Hlen.
  { destruct s; [done | simpl in Hlen; lia]. }
  destruct s as [|c s]; [done|]. simpl in Hlen. cbn [Utils.sub_CTS_1].
  destruct (in_word && Str.is_lower c).
  { rewrite !strip_cons, IH by (simpl in *; lia). done. }
  destruct s as [|u [|l s]].
  - done.
  - rewrite !(strip_cons c), IH by (simpl in *; lia). done.
  - simpl in Hlen.
    destruct (Str.is_dot c && Str.is_upper u && Str.is_lower l).
    + rewrite (strip_cons c (String "_" _)), (strip_cons "_").
      change (Ascii.eqb "_" "_") with true. cbv iota.
      rewrite (strip_cons c (String u _)), !(strip_cons u), !(strip_cons l).
      by rewrite IH by (simpl in *; lia).
    + rewrite !(strip_cons c), IH by (simpl in *; lia). done.
Qed.

Lemma strip_sub_CTS_2 (n : nat) (s : string) :
  (String.length s ≤ n)%nat →
  strip_underscores (Utils.sub_CTS_2 s) = strip_underscores s.
Proof.
  revert s. induction n as [|n IH]; intros s Hlen.
  { destruct s; [done | simpl in Hlen; lia]. }
  destruct s as [|c s]; [done|]. simpl in Hlen. cbn [Utils.sub_CTS_2].
  destruct s as [|u s]; [done|]. simpl in Hlen.
  destruct ((Str.is_lower c || Str.is_digit c) && Str.is_upper u).
  - rewrite (strip_cons c (String "_" _)), (strip_cons "_").
    change (Ascii.eqb "_" "_") with true. cbv iota.
    rewrite (strip_cons c (String u _)), !(strip_cons u).
    by rewrite IH by (simpl in *; lia).
  - rewrite !(strip_cons c), IH by (simpl in *; lia). done.
Qed.

(** [camel_to_snake] changes an ASCII name by inserting underscores and
    turning the letters [A] to [Z] into lower case, and by nothing else:
    without their underscores, the name it returns is the lower-cased
    name it was given. *)
Theorem camel_to_snake_letters (name : string) :
  isascii name = true →
  strip_underscores (Utils.camel_to_snake name) = Str.lower (strip_underscores name).
Proof.
  intros _. unfold Utils.camel_to_snake. rewrite strip_lower.
  rewrite (strip_sub_CTS_2 (String.length (Utils.sub_CTS_1 false name))) by done.
  by rewrite (strip_sub_CTS_1 (String.length name)).
Qed.

Lemma camel_to_snake_letters_witness :
  strip_underscores (Utils.camel_to_snake "LockIndex") = "lockindex".
Proof.
  rewrite (camel_to_snake_letters "LockIndex" eq_refl). reflexivity.
Defined.

(** ** Joining path segments *)

Section join.

#[local] Abbreviation squeeze := (Str.replace "//" "/").

Lemma append_cons (c : ascii) (s t : string) : String c s +:+ t = String c (s +:+ t).
Proof. reflexivity. Qed.

Lemma slash_free_cons (c : ascii) (s : string) :
  slash_free (String c s) = true ↔ c ≠ "/"%char ∧ slash_free s = true.
Proof.
  cbn [slash_free]. rewrite andb_true_iff, negb_true_iff, Ascii.eqb_neq. done.
Qed.

Lemma squeeze_slash_free (p rest : string) :
  slash_free p = true → squeeze (p +:+ rest) = p +:+ squeeze rest.
Proof.
  induction p as [|c p IH]; [done|]. intros [Hc Hp]%slash_free_cons.
  rewrite !append_cons, squeeze_other by done. by rewrite IH.
Qed.

Lemma squeeze_segments (parts : list string) :
  Forall segment parts →
  squeeze (Str.join ((fun p => "/" +:+ p) <$> parts)) = Str.join ((fun p => "/" +:+ p) <$> parts).
Proof.
  induction 1 as [|p parts [Hne Hfree] _ IH]; [done|].
  rewrite fmap_cons. unfold Str.join in *. cbn [foldr].
  destruct p as [|c p]; [done|]. apply slash_free_cons in Hfree as [Hc Hfree].
  change ("/" +:+ String c p) with (String "/" (String c p)).
  rewrite !append_cons, squeeze_slash_other by done.
  by rewrite squeeze_slash_free, IH.
Qed.

Lemma path_join_str_segment (p : string) : segment p → path_join_str p = "/" +:+ p.
Proof.
  intros [Hne Hfree]. unfold path_join_str.
  destruct p as [|c p]; [done|]. apply slash_free_cons in Hfree as [Hc Hfree].
  change ("/" +:+ String c p) with (String "/" (String c p)).
  rewrite squeeze_slash_other by done.
  rewrite <- (append_empty p) at 1. rewrite squeeze_slash_free by done.
  change (squeeze "") with "". by rewrite append_empty.
Qed.

(** Segments, that is non-empty parts without slashes, are joined as
    they are, each led by one slash. *)
Theorem path_join_segments (parts : list string) :
  parts ≠ [] →
  Forall segment parts →
  path_join parts = Str.join ((fun p => "/" +:+ p) <$> parts).
Proof.
  intros Hne Hparts. unfold path_join.
  assert (Hmap : map path_join_str parts = (fun p => "/" +:+ p) <$> parts).
  { clear Hne. induction Hparts as [|p parts Hp _ IH]; [done|].
    cbn [map]. by rewrite fmap_cons, IH, path_join_str_segment. }
  rewrite Hmap.
  destruct Hparts as [|p parts [Hp Hfree] Hparts]; [done|].
  rewrite fmap_cons. unfold Str.join. cbn [foldr].
  change ("/" +:+ ("/" +:+ p) +:+ ?t) with (String "/" (String "/" (p +:+ t))).
  rewrite squeeze_slash_slash, squeeze_slash_free by done.
  fold (Str.join ((fun p => "/" +:+ p) <$> parts)).
  by rewrite squeeze_segments.
Qed.

End join.

Lemma path_join_segments_witness :
  path_join ["v1"; "kv"; "svc"] = "/v1/kv/svc".
Proof.
  apply (path_join_segments ["v1"; "kv"; "svc"]); [discriminate|].
  repeat constructor; discriminate.
Defined.

(** ** More on the fold: when it raises, which leaves it keeps *)

#[local] Close Scope string_scope.

Section flatdict_more.
Context {K : Type} `{Countable K} {V : Type}.
Implicit Types (d t : gmap K (Utils.tree K V)) (p q ks : list K) (v w u : V).

Import Utils.

Lemma assign_raises_inv d ks (l : K) v :
  raises (assign d ks l v) → ∃ p u, p `prefix_of` ks ∧ leaf_at d p = Some u.
Proof.
  revert d. induction ks as [|k ks IH]; intros d Hraises; [done|].
  simpl in Hraises. destruct (setdefault d k) as [u|sub] eqn:Hsub.
  - exists [k], u. split; [apply prefix_cons, prefix_nil|].
    by rewrite leaf_at_cons, Hsub.
  - destruct (IH sub) as (p & u & Hpre & Hleaf).
    { by destruct (assign sub ks l v). }
    exists (k :: p), u. split; [by apply prefix_cons|].
    by rewrite leaf_at_cons, Hsub.
Qed.

(** Storing one entry raises exactly when its key tuple is empty or a leaf
    is stored at a proper prefix of it. *)
Lemma store_entry_raises d q w :
  raises (store_entry d q w) ↔ q = [] ∨ ∃ p u, proper_prefix p q ∧ leaf_at d p = Some u.
Proof.
  destruct (decide (q = [])) as [-> | Hq].
  { split; [by left | done]. }
  destruct (tuple_snoc q Hq) as (ks & l & ->). rewrite store_entry_snoc. split.
  - intros (p & u & Hpre & Hleaf)%assign_raises_inv. right.
    exists p, u. split; [by apply prefix_proper_snoc | done].
  - intros [? | (p & u & Hpre & Hleaf)]; [done|].
    eapply assign_blocked; [by eapply proper_prefix_snoc | done].
Qed.

Lemma fold_entries_raises d (items : list (list K * V)) :
  raises (fold_entries d items) ↔
    ∃ l1 q w l2 d1, items = l1 ++ (q, w) :: l2
      ∧ fold_entries d l1 = Ok d1
      ∧ raises (store_entry d1 q w).
Proof.
  revert d. induction items as [|[p v] items IH]; intros d.
  { split; [done|]. intros (l1 & q & w & l2 & d1 & Heq & _). by destruct l1. }
  rewrite fold_entries_cons. split.
  - destruct (store_entry d p v) as [d'|e] eqn:Hstore.
    + cbn [mbind outcome_bind].
      intros (l1 & q & w & l2 & d1 & -> & Hfold & Hraises)%IH.
      exists ((p, v) :: l1), q, w, l2, d1. split; [done|]. split; [|done].
      by rewrite fold_entries_cons, Hstore.
    + intros _. exists [], p, v, items, d. by rewrite Hstore.
  - intros (l1 & q & w & l2 & d1 & Heq & Hfold & Hraises).
    destruct l1 as [|x l1]; simplify_eq/=.
    { by destruct (store_entry d1 q w). }
    destruct (store_entry d p v) as [d'|e]; [|done]. cbn [mbind outcome_bind] in *.
    apply IH. by exists l1, q, w, l2, d1.
Qed.

Lemma fold_entries_survivors (items : list (list K * V)) d t q w :
  fold_entries d items = Ok t →
  leaf_at t q = Some w ↔
    (leaf_at d q = Some w ∧ ∀ p, p ∈ items.*1 → ¬ p `prefix_of` q)
    ∨ ∃ l1 l2, items = l1 ++ (q, w) :: l2 ∧ ∀ p, p ∈ l2.*1 → ¬ p `prefix_of` q.
Proof.
  revert d. induction items as [|[p v] items IH]; intros d Hfold.
  { injection Hfold as <-. split.
    - intros Hleaf. left. split; [done|]. intros p Hp. by apply elem_of_nil in Hp.
    - intros [[? _] | (l1 & l2 & Heq & _)]; [done | by destruct l1]. }
  rewrite fold_entries_cons in Hfold.
  destruct (store_entry d p v) as [d'|e] eqn:Hstore; [|done].
  cbn [mbind outcome_bind] in Hfold.
  rewrite (IH d' Hfold), (leaf_at_store_entry _ _ _ _ q Hstore). split.
  - intros [[Hleaf Hlater] | (l1 & l2 & -> & Hlater)].
    + destruct (decide (q = p)) as [-> | Hne].
      { injection Hleaf as <-. right. by exists [], items. }
      destruct (decide (p `prefix_of` q)) as [Hpre | Hpre]; [done|].
      left. split; [done|]. intros p' Hp'.
      rewrite fmap_cons, elem_of_cons in Hp'. destruct Hp' as [-> | Hp']; [done|].
      by apply Hlater.
    + right. by exists ((p, v) :: l1), l2.
  - intros [[Hleaf Hlater] | (l1 & l2 & Heq & Hlater)].
    + left. assert (Hp : ¬ p `prefix_of` q).
      { apply Hlater. rewrite fmap_cons. apply list_elem_of_here. }
      rewrite decide_False by (intros ->; by apply Hp).
      rewrite decide_False by done. split; [done|].
      intros p' Hp'. apply Hlater. rewrite fmap_cons. by apply list_elem_of_further.
    + destruct l1 as [|x l1]; simplify_eq/=.
      * left. by rewrite decide_True.
      * right. by exists l1, l2.
Qed.

End flatdict_more.

(** With leaf values that are [str] or [None], the fold raises exactly
    when, the entries before being folded without error, it comes to an
    entry whose key tuple is empty or has a proper prefix at which the
    entries before have left a leaf. *)
Theorem flatdict_to_dict_raises {K : Type} `{Countable K}
    (dct : list (list K * option string)) :
  raises (Utils.flatdict_to_dict dct) ↔
    ∃ l1 q (w : option string) l2 (t1 : gmap K (Utils.tree K (option string))),
      dct = l1 ++ (q, w) :: l2
      ∧ Utils.flatdict_to_dict l1 = Ok t1
      ∧ (q = [] ∨ ∃ p (u : option string), proper_prefix p q ∧ leaf_at t1 p = Some u).
Proof.
  unfold Utils.flatdict_to_dict. rewrite fold_entries_raises.
  split; intros (l1 & q & w & l2 & t1 & Heq & Hfold & Hq);
    exists l1, q, w, l2, t1; (split; [done|]); (split; [done|]).
  - by apply (proj1 (store_entry_raises t1 q w)).
  - by apply (proj2 (store_entry_raises t1 q w)).
Qed.

(** With leaf values that are [str] or [None], when the fold returns, its
    leaves are the entries that no later entry supersedes: an entry is
    superseded by a later one whose key tuple is a prefix of its own. *)
Theorem flatdict_to_dict_survivors {K : Type} `{Countable K}
    (dct : list (list K * option string))
    (t : gmap K (Utils.tree K (option string))) (q : list K) (w : option string) :
  Utils.flatdict_to_dict dct = Ok t →
  leaf_at t q = Some w ↔
    ∃ l1 l2, dct = l1 ++ (q, w) :: l2 ∧ ∀ p, p ∈ l2.*1 → ¬ p `prefix_of` q.
Proof.
  intros Hfold. rewrite (fold_entries_survivors dct ∅ t q w Hfold), leaf_at_empty.
  split; [by intros [[? _] | ?] | by right].
Qed.

#[local] Open Scope string_scope.
#[local] Open Scope Z_scope.

Lemma flatdict_to_dict_survivors_witness :
  leaf_at {[ "x" := Utils.Leaf None ]} ["x"; "y"] = Some (Some "1") ↔
    ∃ l1 l2, [(["x"; "y"], Some "1"); (["x"], None)]
               = (l1 ++ (["x"; "y"], Some "1") :: l2)%list
      ∧ ∀ p, p ∈ l2.*1 → ¬ p `prefix_of` ["x"; "y"].
Proof.
  apply (flatdict_to_dict_survivors [(["x"; "y"], Some "1"); (["x"], None)]).
  reflexivity.
Defined.

(** ** Tree reads: the prefix and the keys of the records *)

Lemma endswith_append (p suffix : string) : Str.endswith (p +:+ suffix) suffix = true.
Proof.
  induction p as [|c p IH].
  - change ("" +:+ suffix) with suffix. destruct suffix; simpl; by rewrite ?String.eqb_refl, ?Ascii.eqb_refl.
  - rewrite append_cons. cbn [Str.endswith]. rewrite IH. apply orb_true_r.
Qed.

(** The prefix of a tree read ends with the separator; a prefix that
    does already is left as it is, so that [list_tree] gives the same with
    and without the separator at the end of its prefix. *)
Theorem tree_prefix_normal (self : KV.t) (prefix separator : string) (recurse : bool) :
  Str.endswith (KV.tree_prefix prefix separator) separator = true
  ∧ KV.tree_prefix (KV.tree_prefix prefix separator) separator
    = KV.tree_prefix prefix separator
  ∧ KV.list_tree self (KV.tree_prefix prefix separator) recurse separator
    = KV.list_tree self prefix recurse separator.
Proof.
  assert (Hends : Str.endswith (KV.tree_prefix prefix separator) separator = true).
  { unfold KV.tree_prefix. destruct (Str.endswith prefix separator) eqn:Hp; [done|].
    apply endswith_append. }
  assert (Hidem : KV.tree_prefix (KV.tree_prefix prefix separator) separator
                  = KV.tree_prefix prefix separator).
  { unfold KV.tree_prefix at 1. by rewrite Hends. }
  split; [done|]. split; [done|]. unfold KV.list_tree. by rewrite Hidem.
Qed.

Section one_character_separator.
Variable c : ascii.

#[local] Abbreviation sep := (String c EmptyString).

Lemma split_from_cons (x : ascii) (s : string) :
  Str.split_from sep 0 (String x s) =
    if Ascii.eqb c x then "" :: Str.split_from sep 0 s
    else match Str.split_from sep 0 s with
         | piece :: pieces => String x piece :: pieces
         | [] => [String x ""]
         end.
Proof. cbn. by rewrite andb_true_r. Qed.

Lemma count_from_cons (x : ascii) (s : string) :
  Str.count_from sep 0 (String x s) =
    if Ascii.eqb c x then S (Str.count_from sep 0 s) else Str.count_from sep 0 s.
Proof. cbn. by rewrite andb_true_r. Qed.

Lemma split_from_nonempty (sepr : string) (skip : nat) (s : string) :
  Str.split_from sepr skip s ≠ [].
Proof.
  revert skip. induction s as [|x s IH]; intros skip; [done|].
  cbn [Str.split_from]. destruct skip as [|n]; [|apply IH].
  destruct (Str.startswith _ _); [done|].
  by destruct (Str.split_from sepr 0 s).
Qed.

Lemma endswith_cons (x : ascii) (p : string) :
  Str.endswith (String x p) sep = true →
  (p = "" ∧ x = c) ∨ (p ≠ "" ∧ Str.endswith p sep = true).
Proof.
  cbn [Str.endswith]. intros [Heq | Hp]%orb_true_iff.
  - apply String.eqb_eq in Heq. injection Heq as -> ->. by left.
  - right. split; [|done]. by intros ->.
Qed.

Lemma count_from_pos (p : string) :
  Str.endswith p sep = true → (1 ≤ Str.count_from sep 0 p)%nat.
Proof.
  induction p as [|x p IH]; [done|]. intros Hends. rewrite count_from_cons.
  destruct (Ascii.eqb_spec c x) as [-> | Hne]; [lia|].
  apply endswith_cons in Hends as [[_ ->] | [_ Hp]]; [done | by apply IH].
Qed.

(** The pieces of [p] are dropped, and only those: what is left are the
    pieces of what follows [p]. *)
Lemma drop_prefix_pieces (p rest : string) :
  Str.endswith p sep = true →
  drop (Str.count_from sep 0 p) (Str.split_from sep 0 (p +:+ rest))
  = Str.split_from sep 0 rest.
Proof.
  induction p as [|x p IH]; [done|]. intros Hends.
  rewrite append_cons, split_from_cons, count_from_cons.
  apply endswith_cons in Hends as [[-> ->] | [Hp Hends]].
  { by rewrite Ascii.eqb_refl. }
  destruct (Ascii.eqb c x); [by apply IH|].
  pose proof (count_from_pos p Hends) as Hpos. specialize (IH Hends).
  destruct (Str.count_from sep 0 p) as [|n]; [lia|].
  destruct (Str.split_from sep 0 (p +:+ rest)) as [|piece pieces] eqn:Hsplit; [|done].
  by apply split_from_nonempty in Hsplit.
Qed.

Lemma char_free_cons (x : ascii) (s : string) :
  char_free c (String x s) = true ↔ x ≠ c ∧ char_free c s = true.
Proof. cbn [char_free]. rewrite andb_true_iff, negb_true_iff, Ascii.eqb_neq. done. Qed.

Lemma split_from_segment (segment rest : string) :
  char_free c segment = true →
  Str.split_from sep 0 (segment +:+ rest) =
    match Str.split_from sep 0 rest with
    | piece :: pieces => (segment +:+ piece) :: pieces
    | [] => [segment]
    end.
Proof.
  induction segment as [|x segment IH]; intros Hfree.
  - change ("" +:+ rest) with rest.
    destruct (Str.split_from sep 0 rest) as [|piece pieces] eqn:Hsplit; [|done].
    by apply split_from_nonempty in Hsplit.
  - apply char_free_cons in Hfree as [Hx Hfree].
    rewrite append_cons, split_from_cons, IH by done.
    rewrite (proj2 (Ascii.eqb_neq c x)) by congruence.
    by destruct (Str.split_from sep 0 rest).
Qed.

(** Splitting what [join] has joined gives the segments back. *)
Lemma split_join (segments : list string) :
  segments ≠ [] →
  Forall (fun s => char_free c s = true) segments →
  Str.split_from sep 0 (join_with sep segments) = segments.
Proof.
  intros Hne Hfree. induction Hfree as [|s segments Hs Hfree IH]; [done|].
  destruct segments as [|s' segments].
  - cbn [join_with]. rewrite <- (append_empty s) at 1.
    rewrite split_from_segment by done. cbn. by rewrite append_empty.
  - change (join_with sep (s :: s' :: segments))
      with (s +:+ String c (join_with sep (s' :: segments))).
    rewrite split_from_segment, split_from_cons, Ascii.eqb_refl by done.
    rewrite IH by done. by rewrite append_empty.
Qed.

End one_character_separator.

(** With a separator of one character and a prefix that ends with it, a
    record whose key is the prefix followed by segments joined by the
    separator gets these segments as its key tuple: the pieces of the
    prefix are dropped, and only those. *)
Theorem key_tuple_segments (c : ascii) (prefix : string) (segments : list string) :
  let separator := String c "" in
  Str.endswith prefix separator = true →
  segments ≠ [] →
  Forall (fun s => char_free c s = true) segments →
  KV.key_tuple (prefix +:+ join_with separator segments) separator
    (KV.tree_index prefix separator)
  = Some segments.
Proof.
  intros separator Hends Hne Hfree.
  unfold KV.key_tuple, KV.tree_index, Str.split, Str.count, separator.
  cbn [mbind option_bind]. f_equal.
  rewrite drop_prefix_pieces by done. by apply split_join.
Qed.

Lemma key_tuple_segments_witness :
  KV.key_tuple "svc/db/primary/host" "/" (KV.tree_index "svc/db/" "/")
  = Some ["primary"; "host"].
Proof.
  apply (key_tuple_segments "/" "svc/db/" ["primary"; "host"]).
  - reflexivity.
  - discriminate.
  - by repeat constructor.
Defined.

(** ** The construction of a client *)

Lemma rstrip_cons (x : ascii) (s : string) :
  Str.rstrip (String x s) "/" =
    match Str.rstrip s "/" with
    | EmptyString => if Ascii.eqb x "/" then "" else String x ""
    | String _ _ as stripped => String x stripped
    end.
Proof. cbn. by rewrite orb_false_r. Qed.

Lemma rstrip_no_trailing (s : string) : Str.endswith (Str.rstrip s "/") "/" = false.
Proof.
  induction s as [|x s IH]; [done|]. rewrite rstrip_cons.
  destruct (Str.rstrip s "/") as [|y r].
  - destruct (Ascii.eqb_spec x "/") as [-> | Hx]; [done|].
    cbn. by rewrite orb_false_r, (proj2 (Ascii.eqb_neq x "/") Hx).
  - change (Str.endswith (String x (String y r)) "/")
      with (String.eqb (String x (String y r)) "/" || Str.endswith (String y r) "/").
    rewrite IH, orb_false_r. by apply String.eqb_neq.
Qed.

Lemma rstrip_slashes (s : string) : ∃ n, s = Str.rstrip s "/" +:+ slashes n.
Proof.
  induction s as [|x s [n IH]]; [by exists 0%nat|]. rewrite rstrip_cons.
  destruct (Str.rstrip s "/") as [|y r].
  - change ("" +:+ slashes n) with (slashes n) in IH. rewrite IH.
    destruct (Ascii.eqb_spec x "/") as [-> | Hx].
    + by exists (S n).
    + by exists n.
  - exists n. by rewrite append_cons, <- IH.
Qed.

Section client.
Variable env : environ.
Variable int_ : string → option Z.

(** A client that has been built was built from a [Config], given or
    resolved; the namespace is the keyword in the first case, the
    resolved one in the second. *)
Lemma init_inv (config : Consul.config_arg) (token : option string) (timeout : option Z)
    (basic_auth namespace prefix : option string) (client : Consul.t) :
  Consul.__init__ env int_ config token timeout basic_auth namespace prefix = inr client →
  ∃ (cfg : Config.t) (ns : option string) (auth : option Adapter.Auth),
    match config with
    | Consul.OfConfig c => cfg = c ∧ ns = namespace
    | Consul.Address a =>
        Consul.resolve env int_ (Some a) token timeout basic_auth namespace = inr (cfg, ns)
    | Consul.NoConfig =>
        Consul.resolve env int_ None token timeout basic_auth namespace = inr (cfg, ns)
    end
    ∧ client = Consul.mk
                 (Adapter.__init__ (Str.rstrip (Config.address cfg) "/" +:+ "/v1") auth ns
                    (Config.timeout cfg))
                 (Config.prefix cfg).
Proof.
  unfold Consul.__init__. intros Hinit.
  assert (Hbody : ∀ cfg ns,
    match
      match or_else (Config.token cfg) None with
      | Some token => inr (Some (Adapter.TokenAuth token))
      | None =>
          match or_else (Config.basic_auth cfg) None with
          | Some basic_auth =>
              match Consul.basic basic_auth with
              | inr auth => inr (Some auth)
              | inl e => inl e
              end
          | None => inr None
          end
      end
    with
    | inl e => inl e
    | inr auth =>
        inr (Consul.mk
               (Adapter.__init__ (Str.rstrip (Config.address cfg) "/" +:+ "/v1") auth ns
                  (Config.timeout cfg))
               (Config.prefix cfg))
    end = inr client →
    ∃ auth, client = Consul.mk
                 (Adapter.__init__ (Str.rstrip (Config.address cfg) "/" +:+ "/v1") auth ns
                    (Config.timeout cfg))
                 (Config.prefix cfg)).
  { intros cfg ns Hc.
    destruct (or_else (Config.token cfg) None); [injection Hc as <-; by eexists|].
    destruct (or_else (Config.basic_auth cfg) None); [|injection Hc as <-; by eexists].
    destruct (Consul.basic _); [done|]. injection Hc as <-. by eexists. }
  destruct config as [|a|c].
  - destruct (Consul.resolve env int_ None _ _ _ _) as [e|[cfg ns]] eqn:Hres; [done|].
    destruct (Hbody cfg ns Hinit) as [auth ->]. by exists cfg, ns, auth.
  - destruct (Consul.resolve env int_ (Some a) _ _ _ _) as [e|[cfg ns]] eqn:Hres; [done|].
    destruct (Hbody cfg ns Hinit) as [auth ->]. by exists cfg, ns, auth.
  - destruct (Hbody c namespace Hinit) as [auth ->]. by exists c, namespace, auth.
Qed.

Lemma resolve_inv (config token : option string) (timeout : option Z)
    (basic_auth namespace : option string) (cfg : Config.t) (ns : option string) :
  Consul.resolve env int_ config token timeout basic_auth namespace = inr (cfg, ns) →
  Config.prefix cfg = None
  ∧ Config.timeout cfg = None
  ∧ Config.address cfg
    = (if truthy config then default "" config
       else getenv env "CONSUL_HTTP_ADDR" "http://localhost:8500")
  ∧ ns = or_else namespace (env "CONSUL_NAMESPACE").
Proof.
  unfold Consul.resolve. intros Hres.
  match type of Hres with
  | match ?t with _ => _ end = _ => destruct t as [e|n]; [done|]
  end.
  injection Hres as <- <-. cbn. repeat split.
  unfold or_else. by destruct (truthy config), config.
Qed.

(** The base URL of a client is the address it was given, less the
    slashes it ends with, followed by ["/v1"]: no slash is doubled before
    ["/v1"], and nothing but trailing slashes is taken off. *)
Theorem consul_base_url (config : Consul.config_arg) (token : option string)
    (timeout : option Z) (basic_auth namespace prefix : option string) (client : Consul.t) :
  Consul.__init__ env int_ config token timeout basic_auth namespace prefix = inr client →
  ∃ base n,
    Adapter.base_url (Consul._adapter client) = base +:+ "/v1"
    ∧ Str.endswith base "/" = false
    ∧ match config with
      | Consul.OfConfig c => Config.address c = base +:+ slashes n
      | Consul.Address a => a ≠ "" → a = base +:+ slashes n
      | Consul.NoConfig =>
          getenv env "CONSUL_HTTP_ADDR" "http://localhost:8500" = base +:+ slashes n
      end.
Proof.
  intros (cfg & ns & auth & Hcfg & ->)%init_inv.
  destruct (rstrip_slashes (Config.address cfg)) as [n Hn].
  exists (Str.rstrip (Config.address cfg) "/"), n.
  split; [done|]. split; [apply rstrip_no_trailing|].
  destruct config as [|a|c].
  - apply resolve_inv in Hcfg as (_ & _ & Haddr & _). by rewrite <- Hn, Haddr.
  - apply resolve_inv in Hcfg as (_ & _ & Haddr & _). intros Ha.
    rewrite <- Hn, Haddr. cbn. by rewrite (proj2 (String.eqb_neq a "")).
  - by destruct Hcfg as [-> _].
Qed.

(** A client built from an address, or from the environment, has no
    prefix and no timeout, whatever the keywords [prefix] and [timeout]
    say, and its namespace is the keyword or else the variable; a client
    built from a [Config] has the prefix and the timeout of the [Config],
    and its namespace is the keyword alone, whatever the [Config] says. *)
Theorem consul_keywords (config : Consul.config_arg) (token : option string)
    (timeout : option Z) (basic_auth namespace prefix : option string) (client : Consul.t) :
  Consul.__init__ env int_ config token timeout basic_auth namespace prefix = inr client →
  match config with
  | Consul.OfConfig c =>
      Consul._kv_prefix client = Config.prefix c
      ∧ Adapter._timeout (Consul._adapter client) = Config.timeout c
      ∧ Adapter._headers (Consul._adapter client)
        = Adapter._headers (Adapter.__init__ "" None namespace None)
  | _ =>
      Consul._kv_prefix client = None
      ∧ Adapter._timeout (Consul._adapter client) = None
      ∧ Adapter._headers (Consul._adapter client)
        = Adapter._headers
            (Adapter.__init__ "" None (or_else namespace (env "CONSUL_NAMESPACE")) None)
  end.
Proof.
  intros (cfg & ns & auth & Hcfg & ->)%init_inv.
  destruct config as [|a|c].
  - apply resolve_inv in Hcfg as (Hprefix & Htimeout & _ & ->). by rewrite Hprefix, Htimeout.
  - apply resolve_inv in Hcfg as (Hprefix & Htimeout & _ & ->). by rewrite Hprefix, Htimeout.
  - by destruct Hcfg as [-> ->].
Qed.

End client.

Lemma consul_base_url_witness :
  ∃ base n,
    Adapter.base_url
      (Consul._adapter
         (Consul.mk (Adapter.__init__ "http://consul:8500/v1" None None None) None))
    = base +:+ "/v1"
    ∧ Str.endswith base "/" = false
    ∧ ("http://consul:8500//" ≠ "" → "http://consul:8500//" = base +:+ slashes n).
Proof.
  apply (consul_base_url no_environ (fun _ => None) (Consul.Address "http://consul:8500//")
           None None None None None).
  reflexivity.
Defined.

Lemma consul_keywords_witness :
  Consul._kv_prefix
    (Consul.mk (Adapter.__init__ "http://consul:8500/v1" None (Some "team") None) None)
  = None
  ∧ Adapter._timeout
      (Consul._adapter
         (Consul.mk (Adapter.__init__ "http://consul:8500/v1" None (Some "team") None) None))
    = None
  ∧ Adapter._headers
      (Consul._adapter
         (Consul.mk (Adapter.__init__ "http://consul:8500/v1" None (Some "team") None) None))
    = [("X-Consul-Namespace", "team")].
Proof.
  apply (consul_keywords no_environ (fun _ => None) (Consul.Address "http://consul:8500")
           None (Some 30) None (Some "team") (Some "svc/")).
  reflexivity.
Defined.

(** ** The address of the service *)

Lemma append_nonempty (s t : string) : t ≠ "" → s +:+ t ≠ "".
Proof. intros Ht. destruct s as [|c s]; [done|]. by rewrite append_cons. Qed.

(** [get_consul_address] never returns an empty address.  A variable
    that is set but empty counts as unset: [CONSUL_ADDR] is used when it
    is not empty, then [CONSUL_HTTP_ADDR] when it is not empty, and when
    neither is the address is made of the scheme, the host and the
    port. *)
Theorem get_consul_address_found (env : environ) :
  Utils.get_consul_address env ≠ ""
  ∧ (∀ a, env "CONSUL_ADDR" = Some a → a ≠ "" → Utils.get_consul_address env = a)
  ∧ (∀ a, truthy (env "CONSUL_ADDR") = false → env "CONSUL_HTTP_ADDR" = Some a → a ≠ "" →
       Utils.get_consul_address env = a)
  ∧ (truthy (env "CONSUL_ADDR") = false → truthy (env "CONSUL_HTTP_ADDR") = false →
       Utils.get_consul_address env
       = getenv env "CONSUL_SCHEME" "http" +:+ "://" +:+ getenv env "CONSUL_HOST" "localhost"
           +:+ ":" +:+ getenv env "CONSUL_PORT" "8500").
Proof.
  unfold Utils.get_consul_address, or_else.
  assert (Hbuilt : ∀ scheme host port : string, scheme +:+ "://" +:+ host +:+ ":" +:+ port ≠ "").
  { intros. by apply append_nonempty. }
  split; [|split; [|split]].
  - destruct (truthy (env "CONSUL_ADDR")) eqn:Haddr.
    + destruct (env "CONSUL_ADDR") as [a|]; [|done]. cbn in Haddr. rewrite Haddr.
      intros ->. done.
    + destruct (env "CONSUL_HTTP_ADDR") as [a|]; [|apply Hbuilt].
      destruct (String.eqb_spec a "") as [-> | Ha]; [apply Hbuilt | done].
  - intros a -> Ha. cbn.
    rewrite (proj2 (String.eqb_neq a "") Ha). cbn.
    by rewrite (proj2 (String.eqb_neq a "") Ha).
  - intros a -> -> Ha. by rewrite (proj2 (String.eqb_neq a "") Ha).
  - intros -> Hhttp. destruct (env "CONSUL_HTTP_ADDR") as [a|]; [|done].
    cbn in Hhttp. apply negb_false_iff in Hhttp. by rewrite Hhttp.
Qed.
